(** * Meeting-transcript: recording lifecycle and chunked transcription

    A shallow embedding of the JavaScript classes
      - [TranscriptMerger]  (transcript-merger.js)
      - [ChunkProcessor]    (chunk-processor.js)
      - [GroqProcessor]     (groq-processor.js)
      - [WhisperProcessor]  (whisper-processor.js)
      - [RecordingManager]  (the recording manager)
    and the properties of the specification that are about them.

    Conventions.
      - A JavaScript number is an exact integer [Z]; rounding of binary
        floating point and NaN are outside the model.
      - A property that may be [undefined] is an [option]; [x || d] on an
        optional string treats [None] and the empty string alike.
      - A string is a sequence of 8-bit characters; the white space class
        [\s] is its ASCII part.
      - What the outside world answers (the clock, a child process, the
        network, the file system) is an explicit argument of the operation
        that asks for it; events are not modelled.
      - An [async] function is run from its call to the settling of its
        promise without another call in between. *)

From Stdlib Require Import ZArith String Ascii List Lia Bool DecimalString.
From stdpp Require Import base tactics option list strings sorting gmap.

Local Open Scope string_scope.
Local Open Scope list_scope.
Local Open Scope Z_scope.

(* ===================================================================== *)
(** * JavaScript string helpers *)
(* ===================================================================== *)

Module JS.

(** [\s] restricted to ASCII: TAB, LF, VT, FF, CR and SPACE. *)
Definition is_ws (c : ascii) : bool :=
  let n := nat_of_ascii c in
  ((9 <=? n) && (n <=? 13))%nat || (n =? 32)%nat.

Fixpoint trimStart (s : string) : string :=
  match s with
  | EmptyString => EmptyString
  | String c s' => if is_ws c then trimStart s' else s
  end.

Fixpoint trimEnd (s : string) : string :=
  match s with
  | EmptyString => EmptyString
  | String c s' =>
      match trimEnd s' with
      | EmptyString => if is_ws c then EmptyString else String c EmptyString
      | r => String c r
      end
  end.

(** [String.prototype.trim]. *)
Definition trim (s : string) : string := trimEnd (trimStart s).

(** [s.replace(/\s+/g, ' ')]: [in_ws] tells whether the previous
    character was white space, already replaced. *)
Fixpoint collapse_ws (in_ws : bool) (s : string) : string :=
  match s with
  | EmptyString => EmptyString
  | String c s' =>
      if is_ws c
      then (if in_ws then collapse_ws true s'
            else String " "%char (collapse_ws true s'))
      else String c (collapse_ws false s')
  end.

(** [s.includes(t)]: [t] occurs in [s] as a contiguous substring. *)
Fixpoint includes (s t : string) : bool :=
  if String.prefix t s then true
  else match s with
       | EmptyString => false
       | String _ s' => includes s' t
       end.

(** [a.join(' ')] on an array of strings. *)
Definition join (sep : string) (l : list string) : string :=
  String.concat sep l.

(** Truthiness of a string. *)
Definition truthy (s : string) : bool :=
  match s with EmptyString => false | _ => true end.

(** [x || d] for an optional string. *)
Definition or_str (x : option string) (d : string) : string :=
  match x with
  | Some s => if truthy s then s else d
  | None => d
  end.

(** [x || 0] for an optional number. *)
Definition or_zero (x : option Z) : Z :=
  match x with Some z => z | None => 0 end.

End JS.

(* ===================================================================== *)
(** * transcript-merger.js *)
(* ===================================================================== *)

Module TranscriptMerger.

(** A word entry of a segment, as an input may carry it. *)
Record raw_word := mkRawWord {
  rw_word  : string;
  rw_start : option Z;
  rw_end   : option Z;
}.

Record word := mkWord {
  w_word  : string;
  w_start : Z;
  w_end   : Z;
}.

(** A segment as the merger receives it: every property may be absent. *)
Record raw_segment := mkRaw {
  rs_id    : option Z;
  rs_start : option Z;
  rs_end   : option Z;
  rs_text  : option string;
  rs_words : option (list raw_word);
}.

(** A segment as the merger produces it. *)
Record segment := mkSeg {
  seg_id    : Z;
  seg_start : Z;
  seg_end   : Z;
  seg_text  : string;
  seg_words : option (list word);
}.

(** The object shape of an input transcript. *)
Record transcript_obj := mkObj {
  to_text     : option string;
  to_language : option string;
  to_segments : option (list raw_segment);
}.

(** The shapes [_normalizeTranscript] tells apart. [TOther] is any
    value that is neither a string, an array nor an object
    ([null], [undefined], a number, ...). *)
Inductive transcript_input :=
| TString (s : string)
| TArray (segs : list raw_segment)
| TObject (o : transcript_obj)
| TOther.

Record normalized := mkNorm {
  n_text     : string;
  n_segments : list segment;
  n_language : string;
}.

Record merged := mkMerged {
  m_text         : string;
  m_segments     : list segment;
  m_language     : string;
  m_duration     : Z;
  m_chunkCount   : nat;
  m_segmentCount : nat;
}.

(** The [segments.map((segment, index) => ...)] callback of
    [_normalizeTranscript]. *)
Definition adjust_segment (offsetSeconds : Z) (index : nat)
           (seg : raw_segment) : segment :=
  let baseStart :=
    match rs_start seg with
    | Some s => s + offsetSeconds
    | None => offsetSeconds + Z.of_nat index * 5
    end in
  let baseEnd :=
    match rs_end seg with
    | Some e => e + offsetSeconds
    | None => baseStart + 5
    end in
  {| seg_id := match rs_id seg with
               | Some i => i
               | None => Z.of_nat index
               end;
     seg_start := Z.max 0 baseStart;
     seg_end := Z.max baseStart baseEnd;
     seg_text := JS.or_str (rs_text seg) "";
     seg_words :=
       option_map
         (List.map (fun w =>
            {| w_word := rw_word w;
               w_start := JS.or_zero (rw_start w) + offsetSeconds;
               w_end := JS.or_zero (rw_end w) + offsetSeconds |}))
         (rs_words seg) |}.

Definition _normalizeTranscript (transcript : transcript_input)
           (offsetSeconds : Z) : normalized :=
  let '(segments, text, language) :=
    match transcript with
    | TString s =>
        ([ {| rs_id := Some 0;
              rs_start := Some offsetSeconds;
              rs_end := Some (offsetSeconds + 60);
              rs_text := Some s;
              rs_words := None |} ],
         s, "unknown")
    | TArray segs =>
        (segs,
         JS.join " " (List.map (fun s => JS.or_str (rs_text s) "") segs),
         "unknown")
    | TObject o =>
        (default [] (to_segments o),
         JS.or_str (to_text o) "",
         JS.or_str (to_language o) "unknown")
    | TOther => ([], "", "unknown")
    end in
  let adjustedSegments := imap (adjust_segment offsetSeconds) segments in
  {| n_text := if JS.truthy text then text
               else JS.join " " (List.map seg_text adjustedSegments);
     n_segments := adjustedSegments;
     n_language := language |}.

(** [allSegments.sort((a, b) => a.start - b.start)]. The sort of an
    array is stable, and for a comparator that is a total preorder every
    stable sort returns the same array; insertion from the right is one. *)
Fixpoint insert_by_start (x : segment) (l : list segment) : list segment :=
  match l with
  | [] => [x]
  | y :: l' =>
      if bool_decide (seg_start x <= seg_start y)
      then x :: y :: l'
      else y :: insert_by_start x l'
  end.

Definition sort_by_start (l : list segment) : list segment :=
  foldr insert_by_start [] l.

(** The two assignments to [previous] in the overlap branch. *)
Definition extend (previous current : segment) : segment :=
  {| seg_id := seg_id previous;
     seg_start := seg_start previous;
     seg_end := seg_end current;
     seg_text :=
       if JS.truthy (seg_text current)
          && negb (JS.includes (seg_text previous) (seg_text current))
       then seg_text previous +:+ " " +:+ seg_text current
       else seg_text previous;
     seg_words := seg_words previous |}.

(** One iteration of the loop of [_deduplicateSegments]. The array
    [result] is never empty; it is kept as the pair of its elements but
    the last and its last element, which is the object the loop calls
    [previous] and updates in place. *)
Definition dedup_step (st : list segment * segment) (current : segment)
  : list segment * segment :=
  let '(kept, previous) := st in
  if bool_decide (seg_start current < seg_end previous) then
    if bool_decide (seg_end current > seg_end previous)
    then (kept, extend previous current)
    else (kept, previous)
  else (kept ++ [previous], current).

Definition result_of (st : list segment * segment) : list segment :=
  fst st ++ [snd st].

Definition _deduplicateSegments (segments : list segment) : list segment :=
  match segments with
  | [] => []
  | first :: rest => result_of (fold_left dedup_step rest ([], first))
  end.

(** The same loop as a recursion on the segments still to visit: what
    [result] holds from [previous] on once they are visited. *)
Fixpoint dedup_from (previous : segment) (rest : list segment)
  : list segment :=
  match rest with
  | [] => [previous]
  | current :: rest' =>
      if bool_decide (seg_start current < seg_end previous) then
        if bool_decide (seg_end current > seg_end previous)
        then dedup_from (extend previous current) rest'
        else dedup_from previous rest'
      else previous :: dedup_from current rest'
  end.

Definition _combineText (segments : list segment) : string :=
  match segments with
  | [] => ""
  | _ =>
      JS.trim
        (JS.collapse_ws false
           (JS.join " "
              (List.filter
                 (fun t => negb (String.length (JS.trim t) =? 0)%nat)
                 (List.map seg_text segments))))
  end.

Definition _createEmptyTranscript : merged :=
  {| m_text := ""; m_segments := []; m_language := "unknown";
     m_duration := 0; m_chunkCount := 0%nat; m_segmentCount := 0%nat |}.

Definition normalize_all (chunkTranscripts : list transcript_input)
           (chunkDuration : Z) : list normalized :=
  imap (fun index transcript =>
          _normalizeTranscript transcript (Z.of_nat index * chunkDuration))
       chunkTranscripts.

Definition all_segments (ns : list normalized) : list segment :=
  concat (List.map n_segments ns).

(** [normalized.find(t => t.language)?.language || 'unknown']. *)
Definition pick_language (ns : list normalized) : string :=
  JS.or_str
    (option_map n_language
       (List.find (fun t => JS.truthy (n_language t)) ns))
    "unknown".

Definition merge (chunkTranscripts : list transcript_input)
           (chunkDuration : Z) : merged :=
  match chunkTranscripts with
  | [] => _createEmptyTranscript
  | _ =>
      let normalized := normalize_all chunkTranscripts chunkDuration in
      let allSegments := sort_by_start (all_segments normalized) in
      let deduplicated := _deduplicateSegments allSegments in
      {| m_text := _combineText deduplicated;
         m_segments := deduplicated;
         m_language := pick_language normalized;
         m_duration := match last deduplicated with
                       | Some s => seg_end s
                       | None => 0
                       end;
         m_chunkCount := length chunkTranscripts;
         m_segmentCount := length deduplicated |}
  end.

End TranscriptMerger.

(* ===================================================================== *)
(** * What a speech-to-text worker answers for one chunk *)
(* ===================================================================== *)

Module Chunk.

(** A time-stamped segment in chunk-local time, as both external
    contracts give it: [start] and [end] are numbers. *)
Record chunk_segment := mkCS {
  cs_id    : option Z;
  cs_start : Z;
  cs_end   : Z;
  cs_text  : option string;
}.

(** The parsed answer for one chunk (a ChunkTranscript). *)
Record chunk_transcript := mkCT {
  ct_text     : option string;
  ct_language : option string;
  ct_segments : option (list chunk_segment);
}.

(** [{...segment, start: segment.start + offsetSeconds,
            end: segment.end + offsetSeconds}]. *)
Definition shift_segment (offsetSeconds : Z) (seg : chunk_segment)
  : chunk_segment :=
  {| cs_id := cs_id seg;
     cs_start := cs_start seg + offsetSeconds;
     cs_end := cs_end seg + offsetSeconds;
     cs_text := cs_text seg |}.

(** The same JavaScript object, seen as an argument of
    [TranscriptMerger.merge]. *)
Definition to_raw (seg : chunk_segment) : TranscriptMerger.raw_segment :=
  {| TranscriptMerger.rs_id := cs_id seg;
     TranscriptMerger.rs_start := Some (cs_start seg);
     TranscriptMerger.rs_end := Some (cs_end seg);
     TranscriptMerger.rs_text := cs_text seg;
     TranscriptMerger.rs_words := None |}.

Definition to_input (t : chunk_transcript)
  : TranscriptMerger.transcript_input :=
  TranscriptMerger.TObject
    {| TranscriptMerger.to_text := ct_text t;
       TranscriptMerger.to_language := ct_language t;
       TranscriptMerger.to_segments :=
         option_map (List.map to_raw) (ct_segments t) |}.

End Chunk.

(* ===================================================================== *)
(** * chunk-processor.js *)
(* ===================================================================== *)

Module ChunkProcessor.
Import Chunk.

(** [_adjustTimestamps]: [transcript.segments.map] raises a TypeError
    when [segments] is absent; [None] is that exception. *)
Definition _adjustTimestamps (transcript : chunk_transcript)
           (offsetSeconds : Z) : option chunk_transcript :=
  match ct_segments transcript with
  | None => None
  | Some segs =>
      Some {| ct_text := ct_text transcript;
              ct_language := ct_language transcript;
              ct_segments :=
                Some (List.map (shift_segment offsetSeconds) segs) |}
  end.

(** [processChunk(chunkPath, chunkIndex)]. [whisper] is what the child
    process gave: [None] for a non-zero exit code, no output or output
    that is not JSON, [Some result] for the parsed JSON. The promise is
    rejected ([None]) or resolved with the adjusted transcript. *)
Definition processChunk (chunkDuration : Z)
           (whisper : option chunk_transcript) (chunkIndex : nat)
  : option chunk_transcript :=
  let chunkStartTime := Z.of_nat chunkIndex * chunkDuration in
  match whisper with
  | None => None
  | Some result => _adjustTimestamps result chunkStartTime
  end.

End ChunkProcessor.

(* ===================================================================== *)
(** * groq-processor.js *)
(* ===================================================================== *)

Module GroqProcessor.
Import Chunk.

Record options := mkOptions {
  o_apiKeys       : option (list string);
  o_maxConcurrent : option nat;
  o_maxRetries    : option nat;
}.

(** The fields the constructor sets once. *)
Record config := mkConfig {
  apiKeys       : list string;
  maxConcurrent : nat;
  maxRetries    : nat;
}.

(** [x || d] for an optional count. *)
Definition or_nat (x : option nat) (d : nat) : nat :=
  match x with
  | Some (S n) => S n
  | _ => d
  end.

Definition constructor (o : options) : config * nat :=
  ({| apiKeys := default [] (o_apiKeys o);
      maxConcurrent := or_nat (o_maxConcurrent o) 5;
      maxRetries := or_nat (o_maxRetries o) 3 |},
   0%nat (* currentKeyIndex *)).

Inductive error :=
| NoApiKeys        (* 'No Groq API keys configured...' *)
| RequestFailed.   (* whatever [_transcribeChunk] rejected with *)

(** The JSON body of a response of the remote API. *)
Record groq_segment := mkGroqSegment {
  gs_id    : option Z;
  gs_start : option Z;
  gs_end   : option Z;
  gs_text  : option string;
}.

Record groq_result := mkGroqResult {
  gr_text     : option string;
  gr_language : option string;
  gr_segments : option (list groq_segment);
}.

(** [_convertGroqFormat]. *)
Definition _convertGroqFormat (groqResult : groq_result) : chunk_transcript :=
  {| ct_text := Some (JS.or_str (gr_text groqResult) "");
     ct_language := Some (JS.or_str (gr_language groqResult) "unknown");
     ct_segments :=
       Some (default []
               (option_map
                  (List.map (fun seg =>
                     {| cs_id := Some (JS.or_zero (gs_id seg));
                        cs_start := JS.or_zero (gs_start seg);
                        cs_end := JS.or_zero (gs_end seg);
                        cs_text := Some (JS.or_str (gs_text seg) "") |}))
                  (gr_segments groqResult))) |}.

(** How one request ends. *)
Inductive response :=
| FileMissing                          (* the chunk file does not exist *)
| FileEmpty                            (* the chunk file has size 0 *)
| Status200 (body : option groq_result) (* [None]: the body is not JSON *)
| Status429                            (* rate limited *)
| StatusOther (statusCode : Z)
| RequestError.                        (* the request itself failed *)

(** [_transcribeChunk(chunkPath, apiKey)], given how the request ends:
    the promise resolves with the converted transcript, or rejects
    ([None]). *)
Definition _transcribeChunk (r : response) : option chunk_transcript :=
  match r with
  | Status200 (Some result) => Some (_convertGroqFormat result)
  | _ => None
  end.

(** [getNextApiKey]: the key under the cursor, and the cursor moved on.
    The state of the processor that changes is [currentKeyIndex]. *)
Definition getNextApiKey (cfg : config) (currentKeyIndex : nat)
  : error + (string * nat) :=
  match apiKeys cfg with
  | [] => inl NoApiKeys
  | _ =>
      let key := default "" (apiKeys cfg !! currentKeyIndex) in
      inr (key, ((currentKeyIndex + 1) mod length (apiKeys cfg))%nat)
  end.

(** A request of [_transcribeChunk] made for a chunk: the index of the
    chunk, the [retryCount] of the call of [_transcribeWithRetry] that
    made it, and the key it was made with. *)
Record attempt := mkAttempt {
  a_chunk      : nat;
  a_retryCount : nat;
  a_key        : string;
}.

(** The pool while [processChunksParallel] runs. [currentKeyIndex] is
    the one cursor that the calls for all the chunks share. [inFlight]
    holds the requests that are awaited; [attempts] is the trace of all
    the requests made, in the order in which they were made; [promises]
    is what the promises of [processChunk] have settled to, with the
    index of their chunk, the latest last. *)
Record pool := mkPool {
  currentKeyIndex : nat;
  inFlight        : list attempt;
  attempts        : list attempt;
  promises        : list (nat * (error + chunk_transcript));
}.

(** A pool at rest, between two jobs. *)
Definition idle (currentKeyIndex : nat) : pool :=
  {| currentKeyIndex := currentKeyIndex; inFlight := []; attempts := [];
     promises := [] |}.

Definition promise_settled (p : pool) (chunkIndex : nat)
           (how : error + chunk_transcript) : pool :=
  {| currentKeyIndex := currentKeyIndex p;
     inFlight := inFlight p;
     attempts := attempts p;
     promises := promises p ++ [(chunkIndex, how)] |}.

Definition request_made (p : pool) (idx : nat) (a : attempt) : pool :=
  {| currentKeyIndex := idx;
     inFlight := inFlight p ++ [a];
     attempts := attempts p ++ [a];
     promises := promises p |}.

(** [processChunk(chunkPath, chunkIndex)] up to its first [await]: the
    key is taken and the first request is made; without keys
    [getNextApiKey] throws and the promise rejects at once. *)
Definition processChunk (cfg : config) (chunkIndex : nat) (p : pool) : pool :=
  match getNextApiKey cfg (currentKeyIndex p) with
  | inl e => promise_settled p chunkIndex (inl e)
  | inr (apiKey, idx) =>
      request_made p idx {| a_chunk := chunkIndex; a_retryCount := 0;
                         a_key := apiKey |}
  end.

(** [_transcribeWithRetry] from the moment the request [a] that it
    awaits ends with [r], up to its return, its [throw] or the [await]
    of the recursive call: the cursor that [getNextApiKey] reads is the
    one of the pool at that moment. *)
Definition _transcribeWithRetry (cfg : config) (a : attempt) (r : response)
           (p : pool) : pool :=
  match _transcribeChunk r with
  | Some t => promise_settled p (a_chunk a) (inr t)
  | None =>
      if (a_retryCount a <? maxRetries cfg)%nat
         && (1 <? length (apiKeys cfg))%nat
      then
        match getNextApiKey cfg (currentKeyIndex p) with
        | inr (nextKey, idx) =>
            request_made p idx {| a_chunk := a_chunk a;
                               a_retryCount := S (a_retryCount a);
                               a_key := nextKey |}
        | inl e => promise_settled p (a_chunk a) (inl e)
        end
      else promise_settled p (a_chunk a) (inl RequestFailed)
  end.

(** One turn of the event loop: the request at the position [fst ev]
    of [inFlight] ends with [snd ev]. Which request ends next, and how,
    is for the network to decide. *)
Definition settle (cfg : config) (ev : nat * response) (p : pool) : pool :=
  match inFlight p !! fst ev with
  | Some a =>
      _transcribeWithRetry cfg a (snd ev)
        {| currentKeyIndex := currentKeyIndex p;
           inFlight := delete (fst ev) (inFlight p);
           attempts := attempts p;
           promises := promises p |}
  | None => p
  end.

(** [batch.map(...)]: [processChunk] is called for every chunk of the
    batch that starts at [i], in order, before any request ends. *)
Definition start_batch (cfg : config) (total i : nat) (p : pool) : pool :=
  fold_left (fun p chunkIndex => processChunk cfg chunkIndex p)
            (seq i (Nat.min (maxConcurrent cfg) (total - i))) p.

(** The batch loop of [processChunksParallel] as the pool lives it, from
    the batch that starts at [i]. [schedule] gives, for each batch in
    turn, the requests that end, in the order in which they end. The
    next batch starts when no request is in flight any more
    ([await Promise.all]); a schedule that stops before that shows the
    pool in the middle of a batch. *)
Fixpoint pool_loop (cfg : config) (schedule : list (list (nat * response)))
         (total i : nat) (p : pool) : pool :=
  match schedule with
  | [] => p
  | events :: later =>
      if (i <? total)%nat then
        let p' := fold_left (fun p ev => settle cfg ev p) events
                            (start_batch cfg total i p) in
        match inFlight p' with
        | [] => pool_loop cfg later total (i + maxConcurrent cfg) p'
        | _ :: _ => p'
        end
      else p
  end.

(** The requests made for the chunk [chunkIndex], in order. *)
Definition attempts_of (chunkIndex : nat) (l : list attempt) : list attempt :=
  List.filter (fun a => (a_chunk a =? chunkIndex)%nat) l.

(** [results[index] = result] on a JavaScript array: an index past the
    end extends the array and leaves holes. *)
Definition array_set {A} (index : nat) (x : A) (a : list (option A))
  : list (option A) :=
  if (index <? length a)%nat then <[index := Some x]> a
  else a ++ replicate (index - length a) None ++ [Some x].

(** The body of the batch loop of [processChunksParallel] for the
    batch that starts at [i]: [settled] is what the promise of
    [processChunk] for each chunk index settled to. *)
Definition run_batch {A} (maxConc : nat) (settled : nat -> option A)
           (total i : nat) (results : list (option A))
  : list (option A) :=
  let batch := seq i (Nat.min maxConc (total - i)) in
  fold_left
    (fun res chunkIndex =>
       match settled chunkIndex with
       | Some result => array_set chunkIndex result res
       | None => res
       end)
    batch results.

Fixpoint batch_loop {A} (fuel : nat) (maxConc : nat)
         (settled : nat -> option A) (total i : nat)
         (results : list (option A)) : list (option A) :=
  match fuel with
  | O => results
  | S fuel' =>
      if (i <? total)%nat
      then batch_loop fuel' maxConc settled total (i + maxConc)
                      (run_batch maxConc settled total i results)
      else results
  end.

(** [processChunksParallel(chunkPaths)]. The loop variable grows by
    [maxConcurrent], which the constructor makes at least 1, so
    [length chunkPaths] iterations are enough. The order in which the
    requests of one batch complete decides only when, not where, a
    result is stored. The array returned is
    [results.filter(r => r !== undefined)]. *)
Definition processChunksParallel (cfg : config)
           (settled : nat -> option chunk_transcript)
           (chunkPaths : list string) : list chunk_transcript :=
  let total := length chunkPaths in
  omap id (batch_loop total (maxConcurrent cfg) settled total 0%nat []).

End GroqProcessor.

(* ===================================================================== *)
(** * whisper-processor.js *)
(* ===================================================================== *)

Module WhisperProcessor.
Import Chunk.

Record options := mkOptions {
  o_chunkDuration     : option Z;
  o_useGroq           : option bool;
  o_groqApiKeys       : option (list string);
  o_groqMaxConcurrent : option nat;
}.

(** What the constructor fixes. Exactly one of [groqProcessor] and
    [chunkProcessor] is created. *)
Record config := mkConfig {
  chunkDuration  : Z;
  groqProcessor  : option GroqProcessor.config;
  chunkProcessor : bool;
}.

Record job := mkJob {
  audioPath : string;
  outputDir : string;
  startTime : Z;
}.

(** The fields [processAudio] assigns. *)
Record state := mkState {
  isProcessing : bool;
  currentJob   : option job;
  useGroq      : bool;
}.

(** [options.chunkDuration || 60]. *)
Definition or_60 (x : option Z) : Z :=
  match x with
  | Some 0 | None => 60
  | Some d => d
  end.

Definition constructor (o : options) : config * state :=
  let chunkDuration := or_60 (o_chunkDuration o) in
  let useGroq := default false (o_useGroq o) in
  let groqApiKeys := default [] (o_groqApiKeys o) in
  let groq := useGroq && (0 <? length groqApiKeys)%nat in
  ({| chunkDuration := chunkDuration;
      groqProcessor :=
        if groq
        then Some (fst (GroqProcessor.constructor
               {| GroqProcessor.o_apiKeys := Some groqApiKeys;
                  GroqProcessor.o_maxConcurrent :=
                    Some (GroqProcessor.or_nat (o_groqMaxConcurrent o) 5);
                  GroqProcessor.o_maxRetries := None |}))
        else None;
      chunkProcessor := negb groq |},
   {| isProcessing := false; currentJob := None; useGroq := useGroq |}).

(** [_adjustTimestamps], the helper of the Groq path. *)
Definition _adjustTimestamps (transcript : chunk_transcript)
           (offsetSeconds : Z) : chunk_transcript :=
  match ct_segments transcript with
  | None => transcript
  | Some segs =>
      {| ct_text := ct_text transcript;
         ct_language := ct_language transcript;
         ct_segments :=
           Some (List.map (shift_segment offsetSeconds) segs) |}
  end.

(** What the outside world does during one call of [processAudio]. *)
Record world := mkWorld {
  w_now         : Z;                       (* Date.now() at entry *)
  w_mkdir       : bool;                    (* fs.mkdir succeeds *)
  w_split       : option (list string);    (* the chunk files, or a failed split *)
  w_groq_throws : bool;                    (* processChunksParallel itself rejects *)
  w_groq        : nat -> option GroqProcessor.groq_result;  (* remote worker, per chunk index: the body that was accepted *)
  w_whisper     : nat -> option chunk_transcript;  (* local engine, per chunk index *)
  w_write_json  : bool;                    (* writing transcript.json succeeds *)
  w_write_txt   : bool;                    (* writing transcript.txt succeeds *)
}.

Inductive error :=
| AlreadyInProgress   (* 'Transcription already in progress' *)
| MkdirFailed
| SplitFailed
| WriteFailed.

Inductive result :=
| Return (transcript : TranscriptMerger.merged)
| Throw (e : error).

(** [useGroq && groqProcessor && groqProcessor.apiKeys.length > 0]. *)
Definition groq_ready (cfg : config) (useGroq : bool) : bool :=
  useGroq &&
  match groqProcessor cfg with
  | Some g => (0 <? length (GroqProcessor.apiKeys g))%nat
  | None => false
  end.

(** The Groq branch: the transcripts pushed and the new [useGroq]. *)
Definition groq_branch (cfg : config) (useGroq : bool) (w : world)
           (chunks : list string) : list chunk_transcript * bool :=
  match groqProcessor cfg with
  | Some g =>
      if groq_ready cfg useGroq then
        if w_groq_throws w then ([], false)
        else
          let groqTranscripts :=
            GroqProcessor.processChunksParallel g
              (fun chunkIndex =>
                 option_map GroqProcessor._convertGroqFormat
                            (w_groq w chunkIndex))
              chunks in
          (imap (fun i transcript =>
                   _adjustTimestamps transcript
                     (Z.of_nat i * chunkDuration cfg))
                groqTranscripts,
           useGroq)
      else ([], useGroq)
  | None => ([], useGroq)
  end.

(** The sequential loop of the local branch: the transcripts pushed.
    Without a [chunkProcessor] the call [this.chunkProcessor.processChunk]
    raises a TypeError inside the [try] of every iteration. *)
Definition local_branch (cfg : config) (w : world) (chunks : list string)
  : list chunk_transcript :=
  omap (fun i =>
          if chunkProcessor cfg
          then ChunkProcessor.processChunk (chunkDuration cfg)
                 (w_whisper w i) i
          else None)
       (seq 0 (length chunks)).

(** The [try] block of [processAudio]; events are not modelled, they
    change neither the state nor the result. *)
Definition try_block (cfg : config) (st : state) (w : world)
  : state * result :=
  if negb (w_mkdir w) then (st, Throw MkdirFailed) else
  match w_split w with
  | None => (st, Throw SplitFailed)
  | Some chunks =>
      let '(fromGroq, useGroq') := groq_branch cfg (useGroq st) w chunks in
      let st' := {| isProcessing := isProcessing st;
                    currentJob := currentJob st;
                    useGroq := useGroq' |} in
      let transcripts :=
        if negb (groq_ready cfg useGroq')
        then fromGroq ++ local_branch cfg w chunks
        else fromGroq in
      let merged :=
        TranscriptMerger.merge (List.map to_input transcripts)
                               (chunkDuration cfg) in
      if negb (w_write_json w) then (st', Throw WriteFailed)
      else if negb (w_write_txt w) then (st', Throw WriteFailed)
      else (st', Return merged)
  end.

Definition processAudio (cfg : config) (st : state)
           (audioPath outputDir : string) (w : world) : state * result :=
  if isProcessing st then (st, Throw AlreadyInProgress)
  else
    let st1 := {| isProcessing := true;
                  currentJob := Some {| audioPath := audioPath;
                                        outputDir := outputDir;
                                        startTime := w_now w |};
                  useGroq := useGroq st |} in
    let '(st2, r) := try_block cfg st1 w in
    (* catch: emit 'error' and rethrow; finally: *)
    ({| isProcessing := false; currentJob := None;
        useGroq := useGroq st2 |}, r).

(** Calls of [processAudio] one after the other, each run to its end:
    the state after each call and what the call gave. *)
Fixpoint run_jobs (cfg : config) (st : state)
         (calls : list (string * string * world))
  : list (state * result) :=
  match calls with
  | [] => []
  | (a, o, w) :: calls' =>
      let sr := processAudio cfg st a o w in
      sr :: run_jobs cfg (fst sr) calls'
  end.

End WhisperProcessor.

(* ===================================================================== *)
(** * recording-manager.js *)
(* ===================================================================== *)

Module RecordingManager.

Record options := mkOptions {
  o_mode           : option string;
  o_outputPath     : option string;
  o_micDevice      : option string;
  o_loopbackDevice : option string;
}.

Record gap := mkGap {
  g_start    : Z;
  g_end      : option Z;   (* null until the gap is closed *)
  g_duration : option Z;   (* null until the gap is closed *)
}.

Record rec_segment := mkRecSegment {
  s_path      : string;
  s_startTime : Z;
}.

Record recording := mkRecording {
  r_startTime      : Z;
  r_outputPath     : string;
  r_mode           : string;
  r_micDevice      : option string;
  r_loopbackDevice : option string;
  r_gaps           : list gap;
  r_segments       : list rec_segment;
}.

Record state := mkState {
  currentRecording : option recording;
  isPaused         : bool;
  pauseStartTime   : option Z;
}.

Definition constructor : state :=
  {| currentRecording := None; isPaused := false; pauseStartTime := None |}.

(** [{ success: true }] or [{ success: false, error }]. *)
Inductive op_result :=
| Success
| Failure (error : string).

(** What [recorder.stopRecording()] does: it rejects, or it resolves
    with an object whose [success] is the flag. *)
Inductive recorder_stop :=
| StopThrows (message : string)
| StopResolves (success : bool).

(** Truthiness of an optional string ([!x] is its negation). *)
Definition given (x : option string) : bool :=
  match x with Some s => JS.truthy s | None => false end.

Section Paths.
(** The two paths the manager computes with Node's [path] module:
    the concat list next to the output file, and the file of the
    segment numbered [segmentIndex]. *)
Variable concat_list_path : string -> string.
Variable segment_path : string -> nat -> string.

(** [startRecording(options)]; [inl] is the exception thrown.
    [now1] and [now2] are the two readings of the clock;
    [recorder_error] is [None] when [recorder.startRecording] resolves
    and the message of its error when it rejects. *)
Definition startRecording (st : state) (o : options) (now1 now2 : Z)
           (recorder_error : option string) : state * (string + unit) :=
  match currentRecording st with
  | Some _ => (st, inl "Recording already in progress")
  | None =>
      let mode := JS.or_str (o_mode o) "both" in
      match o_outputPath o with
      | None => (st, inl "Missing output path")
      | Some outputPath =>
          if negb (JS.truthy outputPath)
          then (st, inl "Missing output path")
          else if String.eqb mode "mic" && negb (given (o_micDevice o))
          then (st, inl "Microphone device required for mic-only recording")
          else if String.eqb mode "system"
                  && negb (given (o_loopbackDevice o))
          then (st, inl "Loopback device required for system-only recording")
          else if String.eqb mode "both"
                  && (negb (given (o_micDevice o))
                      || negb (given (o_loopbackDevice o)))
          then (st, inl "Both microphone and loopback devices required for mixed recording")
          else
            let rec :=
              {| r_startTime := now1;
                 r_outputPath := outputPath;
                 r_mode := JS.or_str (o_mode o) "both";
                 r_micDevice := o_micDevice o;
                 r_loopbackDevice := o_loopbackDevice o;
                 r_gaps := [];
                 r_segments := [ {| s_path := outputPath;
                                    s_startTime := now2 |} ] |} in
            match recorder_error with
            | None =>
                ({| currentRecording := Some rec; isPaused := false;
                    pauseStartTime := None |}, inr tt)
            | Some message =>
                ({| currentRecording := None; isPaused := false;
                    pauseStartTime := None |}, inl message)
            end
      end
  end.

(** [pauseRecording()]. *)
Definition pauseRecording (st : state) (recorder : recorder_stop)
           (now : Z) : state * op_result :=
  match currentRecording st with
  | None => (st, Failure "No recording in progress")
  | Some rec =>
      if isPaused st then (st, Failure "Recording is already paused")
      else
        match recorder with
        | StopThrows message => (st, Failure message)
        | StopResolves _ =>
            ({| currentRecording :=
                  Some {| r_startTime := r_startTime rec;
                          r_outputPath := r_outputPath rec;
                          r_mode := r_mode rec;
                          r_micDevice := r_micDevice rec;
                          r_loopbackDevice := r_loopbackDevice rec;
                          r_gaps := r_gaps rec ++
                                    [ {| g_start := now;
                                         g_end := None;
                                         g_duration := None |} ];
                          r_segments := r_segments rec |};
                isPaused := true;
                pauseStartTime := Some now |},
             Success)
        end
  end.

(** The update of [lastGap] in [resumeRecording]; on an empty array
    there is no last gap and nothing changes. *)
Definition close_last_gap (resumeTime pauseDuration : Z)
           (gaps : list gap) : list gap :=
  alter (fun lastGap => {| g_start := g_start lastGap;
                           g_end := Some resumeTime;
                           g_duration := Some pauseDuration |})
        (length gaps - 1)%nat gaps.

(** [resumeRecording()]. [resumeTime] and [now2] are the two
    readings of the clock; [recorder_error] is [None] when
    [recorder.startRecording] resolves and the message of its error
    when it rejects. The gap is closed and the segment pushed before
    the recorder is asked. *)
Definition resumeRecording (st : state) (resumeTime now2 : Z)
           (recorder_error : option string) : state * op_result :=
  match currentRecording st with
  | None => (st, Failure "No recording to resume")
  | Some rec =>
      if negb (isPaused st) then (st, Failure "Recording is not paused")
      else
        let pauseDuration :=
          resumeTime - default 0 (pauseStartTime st) in
        let segmentIndex := (length (r_segments rec) + 1)%nat in
        let segmentPath := segment_path (r_outputPath rec) segmentIndex in
        let rec' :=
          {| r_startTime := r_startTime rec;
             r_outputPath := r_outputPath rec;
             r_mode := r_mode rec;
             r_micDevice := r_micDevice rec;
             r_loopbackDevice := r_loopbackDevice rec;
             r_gaps := close_last_gap resumeTime pauseDuration
                                      (r_gaps rec);
             r_segments := r_segments rec ++
                           [ {| s_path := segmentPath;
                                s_startTime := now2 |} ] |} in
        match recorder_error with
        | None =>
            ({| currentRecording := Some rec'; isPaused := false;
                pauseStartTime := None |}, Success)
        | Some message =>
            ({| currentRecording := Some rec';
                isPaused := isPaused st;
                pauseStartTime := pauseStartTime st |},
             Failure message)
        end
  end.

(** What happens to the concatenation: the list file cannot be
    written, the process cannot be spawned, or it exits with [code]
    after writing [stderr]. *)
Inductive concat_world :=
| WriteListFails (message : string)
| SpawnFails (message : string)
| Exits (code : Z) (stderr : string).

(** The file system is the set of the paths that exist. [fs.unlink]
    removes a path; [unlink_ok] tells for which paths it works, a
    failure is caught where it happens. *)
Definition unlink (unlink_ok : string -> bool) (p : string)
           (files : gset string) : gset string :=
  if unlink_ok p then files ∖ {[ p ]} else files.

(** [_mergeSegments(segments, outputPath)]: the files afterwards, and
    [None] when the promise resolves, [Some message] when it rejects. *)
Definition _mergeSegments (segments : list rec_segment)
           (outputPath : string) (w : concat_world)
           (unlink_ok : string -> bool) (files : gset string)
  : gset string * option string :=
  let listPath := concat_list_path outputPath in
  match w with
  | WriteListFails message => (files, Some message)
  | SpawnFails message =>
      (files ∪ {[ listPath ]},
       Some ("Failed to spawn FFmpeg for merging: " +:+ message))
  | Exits code stderr =>
      let written :=
        if bool_decide (code = 0)
        then files ∪ {[ listPath ]} ∪ {[ outputPath ]}
        else files ∪ {[ listPath ]} in
      let files1 := unlink unlink_ok listPath written in
      let files2 :=
        fold_left (fun fs seg => unlink unlink_ok (s_path seg) fs)
                  (drop 1 segments) files1 in
      if bool_decide (code = 0) then (files2, None)
      else (files2,
            Some ("Failed to merge segments: "
                  +:+ String.substring 0 500 stderr))
  end.

Record stop_info := mkStopInfo {
  success    : bool;
  outputPath : string;
  duration   : Z;
  gaps       : list gap;
  segments   : list rec_segment;
  mergeError : option string;
}.

(** What [stopRecording()] resolves with; it never rejects. *)
Inductive stop_result :=
| Stopped (info : stop_info)
| NotStopped (error : string).   (* { success: false, error } *)

Definition cleared : state :=
  {| currentRecording := None; isPaused := false;
     pauseStartTime := None |}.

(** [stopRecording()]. *)
Definition stopRecording (st : state) (recorder : recorder_stop)
           (w : concat_world) (unlink_ok : string -> bool) (now : Z)
           (files : gset string)
  : state * gset string * stop_result :=
  match currentRecording st with
  | None => (st, files, NotStopped "No recording in progress")
  | Some rec =>
      match recorder with
      | StopThrows message => (cleared, files, NotStopped message)
      | StopResolves result_success =>
          let '(files', mergeError) :=
            if (1 <? length (r_segments rec))%nat
            then _mergeSegments (r_segments rec) (r_outputPath rec)
                                w unlink_ok files
            else (files, None) in
          let duration := now - r_startTime rec in
          (cleared, files',
           Stopped {| success := result_success && negb (given mergeError);
                      outputPath := r_outputPath rec;
                      duration := duration;
                      gaps := r_gaps rec;
                      segments := r_segments rec;
                      mergeError := mergeError |})
      end
  end.

(** One pause followed by one resume, both answered well by the
    recorder. *)
Record cycle := mkCycle {
  c_pause    : Z;   (* the clock at the pause *)
  c_resume   : Z;   (* the clock at the resume *)
  c_resume2  : Z;   (* its second reading, for the new segment *)
  c_stopped  : bool; (* the flag the recorder's stop resolved with *)
}.

Definition pause_resume (sr : state * bool) (c : cycle) : state * bool :=
  let '(st, ok) := sr in
  let '(st1, r1) := pauseRecording st (StopResolves (c_stopped c))
                                   (c_pause c) in
  let '(st2, r2) := resumeRecording st1 (c_resume c) (c_resume2 c) None in
  (st2,
   ok && match r1, r2 with Success, Success => true | _, _ => false end).

Definition pause_resume_all (st : state) (cycles : list cycle)
  : state * bool :=
  fold_left pause_resume cycles (st, true).


(** The gap of a pause and its resume, once closed. *)
Definition closed_gap (c : cycle) : gap :=
  {| g_start := c_pause c;
     g_end := Some (c_resume c);
     g_duration := Some (c_resume c - c_pause c) |}.

(** The segment that the resume numbered [i] (from 0) opens. *)
Definition resumed_segment (outputPath : string) (i : nat) (c : cycle)
  : rec_segment :=
  {| s_path := segment_path outputPath (i + 2);
     s_startTime := c_resume2 c |}.


(** The concatenation did not succeed. *)
Definition concat_fails (w : concat_world) : Prop :=
  match w with
  | Exits code _ => code <> 0
  | _ => True
  end.

End Paths.

End RecordingManager.

(* ===================================================================== *)
(** * Vocabulary of the properties, and concrete inputs *)
(* ===================================================================== *)

Module Props.
Import TranscriptMerger.

(** [t] occurs in [s]. *)
Definition substring_of (t s : string) : Prop :=
  exists a b, s = a +:+ t +:+ b.

(** Start times do not decrease and a segment starts no earlier than
    the one before it ends. *)
Definition follows (a b : segment) : Prop :=
  seg_start a <= seg_start b /\ seg_end a <= seg_start b.

Definition by_start (a b : segment) : Prop :=
  seg_start a <= seg_start b.

Definition well_timed (s : segment) : Prop :=
  seg_start s <= seg_end s.

(** The text of the kept segment after an overlap when the text of the
    next one is appended if and only if it is not already contained,
    whatever the end times. *)
Definition text_appended_unless_contained (previous current : segment)
  : string :=
  if JS.includes (seg_text previous) (seg_text current)
  then seg_text previous
  else seg_text previous +:+ " " +:+ seg_text current.

(** Start, end and text of a segment. *)
Definition timing (s : segment) : Z * Z * string :=
  (seg_start s, seg_end s, seg_text s).

(** The language field of an input transcript, when it has one that
    is not empty. *)
Definition language_field (t : transcript_input) : option string :=
  match t with
  | TObject o =>
      match to_language o with
      | Some l => if JS.truthy l then Some l else None
      | None => None
      end
  | _ => None
  end.

(** The language of the first input transcript whose language field is
    not empty, and [unknown] when there is none. *)
Definition first_language (ts : list transcript_input) : string :=
  default "unknown" (head (omap language_field ts)).

End Props.

Module Scenario.
Import TranscriptMerger Chunk.

Definition seg (s e : Z) (t : string) : segment :=
  {| seg_id := 0; seg_start := s; seg_end := e; seg_text := t;
     seg_words := None |}.

Definition raw (s e : Z) (t : string) : raw_segment :=
  {| rs_id := None; rs_start := Some s; rs_end := Some e;
     rs_text := Some t; rs_words := None |}.

(** A kept segment and a next one that lies inside it, with a text of
    its own. *)
Definition outer : segment := seg 0 10 "a".
Definition inner : segment := seg 1 5 "b".

(** A next segment that overlaps the kept one and ends later. *)
Definition later : segment := seg 5 12 "b".

(** One transcript with one segment that starts and ends before 0. *)
Definition early : list transcript_input :=
  [ TObject {| to_text := Some "x"; to_language := Some "en";
               to_segments := Some [ raw (-5) (-3) "x" ] |} ].

(** A transcript without a language, then an English one. *)
Definition second_has_language : list transcript_input :=
  [ TObject {| to_text := Some "bonjour"; to_language := None;
               to_segments := Some [ raw 0 2 "bonjour" ] |};
    TObject {| to_text := Some "hello"; to_language := Some "en";
               to_segments := Some [ raw 0 2 "hello" ] |} ].

(** The answer of a worker: one segment from 0 to 2 with the text. *)
Definition says (t : string) : chunk_transcript :=
  {| ct_text := Some t; ct_language := None;
     ct_segments := Some [ {| cs_id := None; cs_start := 0; cs_end := 2;
                              cs_text := Some t |} ] |}.

(** Chunk 0 says Hello, chunk 1 says World, every other chunk fails. *)
Definition hello_world (chunkIndex : nat) : option chunk_transcript :=
  match chunkIndex with
  | 0%nat => Some (says "Hello")
  | 1%nat => Some (says "World")
  | _ => None
  end.

(** Chunk 1 says World, every other chunk fails. *)
Definition only_world (chunkIndex : nat) : option chunk_transcript :=
  match chunkIndex with
  | 1%nat => Some (says "World")
  | _ => None
  end.

(** The same answers as bodies of the remote API. *)
Definition groq_says (t : string) : GroqProcessor.groq_result :=
  {| GroqProcessor.gr_text := Some t;
     GroqProcessor.gr_language := None;
     GroqProcessor.gr_segments :=
       Some [ {| GroqProcessor.gs_id := None;
                 GroqProcessor.gs_start := Some 0;
                 GroqProcessor.gs_end := Some 2;
                 GroqProcessor.gs_text := Some t |} ] |}.

Definition groq_hello_world (chunkIndex : nat)
  : option GroqProcessor.groq_result :=
  match chunkIndex with
  | 0%nat => Some (groq_says "Hello")
  | 1%nat => Some (groq_says "World")
  | _ => None
  end.

Definition groq_only_world (chunkIndex : nat)
  : option GroqProcessor.groq_result :=
  match chunkIndex with
  | 1%nat => Some (groq_says "World")
  | _ => None
  end.

Definition world_of (whisper : nat -> option chunk_transcript)
           (groq : nat -> option GroqProcessor.groq_result)
           (chunks : list string) : WhisperProcessor.world :=
  {| WhisperProcessor.w_now := 1000;
     WhisperProcessor.w_mkdir := true;
     WhisperProcessor.w_split := Some chunks;
     WhisperProcessor.w_groq_throws := false;
     WhisperProcessor.w_groq := groq;
     WhisperProcessor.w_whisper := whisper;
     WhisperProcessor.w_write_json := true;
     WhisperProcessor.w_write_txt := true |}.

Definition two_chunks : WhisperProcessor.world :=
  world_of hello_world groq_hello_world
           ["chunk_000.wav"; "chunk_001.wav"].
Definition first_fails : WhisperProcessor.world :=
  world_of only_world groq_only_world
           ["chunk_000.wav"; "chunk_001.wav"].
Definition three_chunks : WhisperProcessor.world :=
  world_of hello_world groq_hello_world
           ["chunk_000.wav"; "chunk_001.wav"; "chunk_002.wav"].

(** The split fails. *)
Definition split_fails : WhisperProcessor.world :=
  {| WhisperProcessor.w_now := 500;
     WhisperProcessor.w_mkdir := true;
     WhisperProcessor.w_split := None;
     WhisperProcessor.w_groq_throws := false;
     WhisperProcessor.w_groq := groq_hello_world;
     WhisperProcessor.w_whisper := hello_world;
     WhisperProcessor.w_write_json := true;
     WhisperProcessor.w_write_txt := true |}.

(** A processor with the local engine and one with two remote keys,
    both with chunks of 60 seconds. *)
Definition local : WhisperProcessor.config * WhisperProcessor.state :=
  WhisperProcessor.constructor
    {| WhisperProcessor.o_chunkDuration := Some 60;
       WhisperProcessor.o_useGroq := None;
       WhisperProcessor.o_groqApiKeys := None;
       WhisperProcessor.o_groqMaxConcurrent := None |}.

Definition remote : WhisperProcessor.config * WhisperProcessor.state :=
  WhisperProcessor.constructor
    {| WhisperProcessor.o_chunkDuration := Some 60;
       WhisperProcessor.o_useGroq := Some true;
       WhisperProcessor.o_groqApiKeys := Some ["key-a"; "key-b"];
       WhisperProcessor.o_groqMaxConcurrent := None |}.

Definition transcribe (p : WhisperProcessor.config * WhisperProcessor.state)
           (w : WhisperProcessor.world) : WhisperProcessor.result :=
  snd (WhisperProcessor.processAudio (fst p) (snd p)
         "meeting.wav" "out" w).

(** A remote pool with two keys and the default number of retries. *)
Definition two_keys : GroqProcessor.config :=
  fst (GroqProcessor.constructor
         {| GroqProcessor.o_apiKeys := Some ["key-a"; "key-b"];
            GroqProcessor.o_maxConcurrent := None;
            GroqProcessor.o_maxRetries := None |}).


(** Stand-ins for the paths computed with Node's [path] module. *)
Definition list_path (outputPath : string) : string := "concat_list.txt".
Definition segment_file (outputPath : string) (segmentIndex : nat) : string :=
  "rec_segment" +:+ String (ascii_of_nat (48 + segmentIndex)) ".wav".

(** A recording of microphone and system sound, started at 0. *)
Definition start_options : RecordingManager.options :=
  {| RecordingManager.o_mode := None;
     RecordingManager.o_outputPath := Some "rec.wav";
     RecordingManager.o_micDevice := Some "Microphone";
     RecordingManager.o_loopbackDevice := Some "Stereo Mix" |}.

Definition started : RecordingManager.state :=
  fst (RecordingManager.startRecording RecordingManager.constructor
         start_options 0 0 None).

(** A pause at 10 and the resume at 15. *)
Definition pause_10_resume_15 : RecordingManager.cycle :=
  {| RecordingManager.c_pause := 10;
     RecordingManager.c_resume := 15;
     RecordingManager.c_resume2 := 15;
     RecordingManager.c_stopped := true |}.

(** The session after that pause and resume: two segments. *)
Definition resumed : RecordingManager.state :=
  fst (RecordingManager.pause_resume_all segment_file started
         [pause_10_resume_15]).

(** The files of its two segments. *)
Definition recorded : gset string := {[ "rec.wav"; "rec_segment2.wav" ]}.

Definition every_unlink_works (p : string) : bool := true.

(** The recorder stops well, then the concatenation exits with code 1. *)
Definition stop_concat_exits_1
  : RecordingManager.state * gset string * RecordingManager.stop_result :=
  RecordingManager.stopRecording list_path resumed
    (RecordingManager.StopResolves true)
    (RecordingManager.Exits 1 "Invalid data found")
    every_unlink_works 20 recorded.

(** The concatenation exits with code 0. *)
Definition concat_exits_0 : gset string * option string :=
  RecordingManager._mergeSegments list_path
    [ {| RecordingManager.s_path := "rec.wav";
         RecordingManager.s_startTime := 0 |};
      {| RecordingManager.s_path := "rec_segment2.wav";
         RecordingManager.s_startTime := 15 |} ]
    "rec.wav" (RecordingManager.Exits 0 "") every_unlink_works recorded.

(** The concatenation exits with code 1. *)
Definition concat_exits_1 : gset string * option string :=
  RecordingManager._mergeSegments list_path
    [ {| RecordingManager.s_path := "rec.wav";
         RecordingManager.s_startTime := 0 |};
      {| RecordingManager.s_path := "rec_segment2.wav";
         RecordingManager.s_startTime := 15 |} ]
    "rec.wav" (RecordingManager.Exits 1 "Invalid data found")
    every_unlink_works recorded.

(** What the scenario of three chunks is expected to give. *)
Definition expected_of_three (m : merged) : Prop :=
  m_text m = "Hello World" /\
  List.map Props.timing (m_segments m)
    = [ (0, 2, "Hello"); (60, 62, "World") ] /\
  m_chunkCount m = 3%nat /\
  m_segmentCount m = 2%nat.

End Scenario.

(* ===================================================================== *)
(** * transcript-merger.js: checking and printing a transcript *)
(* ===================================================================== *)
(** * What holds of the remote pool at every moment *)
(* ===================================================================== *)

Module PoolProps.
Import GroqProcessor.

(** The pool [p], started at rest with the cursor at [idx], with every
    chunk dispatched so far below [bound]: the cursor has moved by one
    key for each request made; the requests took the keys in circular
    order; the requests of one chunk are numbered from 0 without a hole
    and none above [maxRetries]; with one key at most none is a retry;
    a chunk has at most one request in flight, and it is its latest. *)
Definition pool_ok (cfg : config) (idx bound : nat) (p : pool) : Prop :=
  currentKeyIndex p
  = ((idx + length (attempts p)) mod length (apiKeys cfg))%nat /\
  (forall j a, attempts p !! j = Some a ->
               apiKeys cfg !! ((idx + j) mod length (apiKeys cfg))%nat
               = Some (a_key a)) /\
  (forall c, List.map a_retryCount (attempts_of c (attempts p))
             = seq 0 (length (attempts_of c (attempts p)))) /\
  Forall (fun a => (a_retryCount a <= maxRetries cfg)%nat /\
                   (a_chunk a < bound)%nat /\
                   ((length (apiKeys cfg) <= 1)%nat -> a_retryCount a = 0%nat))
         (attempts p) /\
  Forall (fun a => length (attempts_of (a_chunk a) (attempts p))
                   = S (a_retryCount a) /\
                   (a_chunk a < bound)%nat)
         (inFlight p) /\
  NoDup (List.map a_chunk (inFlight p)).

End PoolProps.

(* ===================================================================== *)

Module TranscriptOutput.
Import TranscriptMerger.

(** What [validate] returns: [{ valid: true }], or [{ valid: false,
    error }] with one of its four messages; the two messages about a
    segment carry its index. *)
Inductive validation :=
| Valid
| NotAnObject                   (* 'Transcript must be an object' *)
| NoSegmentsArray               (* 'Transcript must have segments array' *)
| MissingTimes (i : nat)        (* 'Segment i missing start/end times' *)
| InvalidTimestamps (i : nat).  (* 'Segment i has invalid timestamps' *)

(** The loop of [validate] from the segment numbered [i] on. A start or
    an end that is absent is not of type number. *)
Fixpoint validate_from (i : nat) (segments : list raw_segment) : validation :=
  match segments with
  | [] => Valid
  | seg :: rest =>
      match rs_start seg, rs_end seg with
      | Some s, Some e =>
          if bool_decide (s < 0) || bool_decide (e < s)
          then InvalidTimestamps i
          else validate_from (S i) rest
      | _, _ => MissingTimes i
      end
  end.

(** [validate(transcript)]. A string and the values of [TOther] are not
    objects; an array is an object without a [segments] array. *)
Definition validate (transcript : transcript_input) : validation :=
  match transcript with
  | TObject o =>
      match to_segments o with
      | Some segments => validate_from 0 segments
      | None => NoSegmentsArray
      end
  | TArray _ => NoSegmentsArray
  | TString _ | TOther => NotAnObject
  end.

(** A segment that [merge] produced, read again as an input. *)
Definition as_raw (s : segment) : raw_segment :=
  {| rs_id := Some (seg_id s);
     rs_start := Some (seg_start s);
     rs_end := Some (seg_end s);
     rs_text := Some (seg_text s);
     rs_words :=
       option_map
         (List.map (fun w => {| rw_word := w_word w;
                                rw_start := Some (w_start w);
                                rw_end := Some (w_end w) |}))
         (seg_words s) |}.

(** The object that [merge] returned, as an argument of [validate]. *)
Definition as_transcript (m : merged) : transcript_input :=
  TObject {| to_text := Some (m_text m);
             to_language := Some (m_language m);
             to_segments := Some (List.map as_raw (m_segments m)) |}.

(** [n.toString()] of an integer. *)
Definition toString (n : Z) : string :=
  NilZero.string_of_int (Z.to_int n).

Fixpoint zeros (n : nat) : string :=
  match n with
  | O => EmptyString
  | S n' => String "0"%char (zeros n')
  end.

(** [s.padStart(targetLength, '0')]. *)
Definition padStart (targetLength : nat) (s : string) : string :=
  zeros (targetLength - String.length s) +:+ s.

(** [_formatTime(seconds)]: [Math.floor] of a quotient is [Z.div], the
    remainder [%] has the sign of the dividend. *)
Definition _formatTime (seconds : Z) : string :=
  let hours := seconds / 3600 in
  let minutes := Z.rem seconds 3600 / 60 in
  let secs := Z.rem seconds 60 in
  padStart 2 (toString hours) +:+ ":" +:+
  padStart 2 (toString minutes) +:+ ":" +:+
  padStart 2 (toString secs).

(** [formatAsText(transcript, includeTimestamps)] on a transcript that
    [merge] returned. *)
Definition formatAsText (transcript : merged) (includeTimestamps : bool)
  : string :=
  match m_segments transcript with
  | [] => m_text transcript
  | segments =>
      if negb includeTimestamps then m_text transcript
      else JS.join (String (ascii_of_nat 10) EmptyString)
             (List.map
                (fun s => "[" +:+ _formatTime (seg_start s) +:+ "] "
                          +:+ JS.trim (seg_text s))
                segments)
  end.

(** Reading a stamp [HH:MM:SS] back. *)
Definition digit_value (c : ascii) : option Z :=
  let n := nat_of_ascii c in
  if ((48 <=? n) && (n <=? 57))%nat then Some (Z.of_nat (n - 48)) else None.

Definition two_digits (a b : ascii) : option Z :=
  match digit_value a, digit_value b with
  | Some x, Some y => Some (10 * x + y)
  | _, _ => None
  end.

Definition read_stamp (stamp : string) : option Z :=
  match stamp with
  | String h1 (String h2 (String c1 (String m1 (String m2
      (String c2 (String s1 (String s2 EmptyString))))))) =>
      if Ascii.eqb c1 ":" && Ascii.eqb c2 ":" then
        match two_digits h1 h2, two_digits m1 m2, two_digits s1 s2 with
        | Some h, Some m, Some s => Some (h * 3600 + m * 60 + s)
        | _, _, _ => None
        end
      else None
  | _ => None
  end.

End TranscriptOutput.

(* ===================================================================== *)
(** * Vocabulary of further properties of the merger *)
(* ===================================================================== *)

Module MergerProps.
Import TranscriptMerger.

(** The segments [_normalizeTranscript] adjusts, for each shape of its
    argument. *)
Definition segments_of (t : transcript_input) (offsetSeconds : Z)
  : list raw_segment :=
  match t with
  | TString s =>
      [ {| rs_id := Some 0; rs_start := Some offsetSeconds;
           rs_end := Some (offsetSeconds + 60); rs_text := Some s;
           rs_words := None |} ]
  | TArray segs => segs
  | TObject o => default [] (to_segments o)
  | TOther => []
  end.

(** No segment of the transcript has a start before 0. *)
Definition starts_nonneg (t : transcript_input) : Prop :=
  match t with
  | TArray segs =>
      Forall (fun r => forall s, rs_start r = Some s -> 0 <= s) segs
  | TObject o =>
      Forall (fun r => forall s, rs_start r = Some s -> 0 <= s)
             (default [] (to_segments o))
  | TString _ | TOther => True
  end.

(** The time range of [s] lies within the one of [m]. *)
Definition covers (m s : segment) : Prop :=
  seg_start m <= seg_start s /\ seg_end s <= seg_end m.

(** [a] ends no later than [b] starts. *)
Definition ends_before (a b : segment) : Prop :=
  seg_end a <= seg_start b.

End MergerProps.

(* ===================================================================== *)
(** * groq-processor.js: calls of [getNextApiKey] in a row *)
(* ===================================================================== *)

Module GroqPool.
Import GroqProcessor.

(** [k] calls of [getNextApiKey] one after the other from the cursor
    [currentKeyIndex]: the keys returned, in order, and the cursor left.
    Without keys every call throws and nothing is returned. *)
Fixpoint next_keys (cfg : config) (k : nat) (currentKeyIndex : nat)
  : list string * nat :=
  match k with
  | O => ([], currentKeyIndex)
  | S k' =>
      match getNextApiKey cfg currentKeyIndex with
      | inl _ => ([], currentKeyIndex)
      | inr (key, idx) =>
          let '(keys, idx') := next_keys cfg k' idx in
          (key :: keys, idx')
      end
  end.



End GroqPool.

(* ===================================================================== *)
(** * recording-manager.js: the operations of a session in sequence *)
(* ===================================================================== *)

Module Session.
Import RecordingManager.

(** [forceStop()]: the recorder is stopped by force and the session
    dropped. *)
Definition forceStop (st : state) : state := cleared.

(** The mode the handler of [recording:start] gives to [startRecording]:
    [options.mode || (options.micDevice && options.loopbackDevice ? 'both'
    : options.micDevice ? 'mic' : 'system')]. *)
Definition handler_mode (o : options) : string :=
  JS.or_str (o_mode o)
    (if given (o_micDevice o) && given (o_loopbackDevice o) then "both"
     else if given (o_micDevice o) then "mic"
     else "system").

(** The options the handler gives to [startRecording]; [outputPath] is
    the audio file in the folder of the meeting. *)
Definition handler_options (o : options) (outputPath : string) : options :=
  {| o_mode := Some (handler_mode o);
     o_outputPath := Some outputPath;
     o_micDevice := o_micDevice o;
     o_loopbackDevice := o_loopbackDevice o |}.

(** A call of one of the operations, with what the outside world does
    during it. *)
Inductive op :=
| Start (o : options) (now1 now2 : Z) (recorder_error : option string)
| Pause (recorder : recorder_stop) (now : Z)
| Resume (resumeTime now2 : Z) (recorder_error : option string)
| Stop (recorder : recorder_stop) (w : concat_world)
       (unlink_ok : string -> bool) (now : Z)
| ForceStop.

Section Paths.
Variable concat_list_path : string -> string.
Variable segment_path : string -> nat -> string.

Definition step (sf : state * gset string) (c : op) : state * gset string :=
  let '(st, files) := sf in
  match c with
  | Start o now1 now2 recorder_error =>
      (fst (startRecording st o now1 now2 recorder_error), files)
  | Pause recorder now => (fst (pauseRecording st recorder now), files)
  | Resume resumeTime now2 recorder_error =>
      (fst (resumeRecording segment_path st resumeTime now2 recorder_error),
       files)
  | Stop recorder w unlink_ok now =>
      fst (stopRecording concat_list_path st recorder w unlink_ok now files)
  | ForceStop => (forceStop st, files)
  end.

(** The calls of [ops] one after the other, from a new manager. *)
Definition run (ops : list op) (files : gset string) : state * gset string :=
  fold_left step ops (constructor, files).

End Paths.

(** A gap that was closed: it has an end, and its duration is the end
    less the start. *)
Definition gap_closed (g : gap) : Prop :=
  exists e, g_end g = Some e /\ g_duration g = Some (e - g_start g).

(** A gap that is still open. *)
Definition gap_open (g : gap) : Prop :=
  g_end g = None /\ g_duration g = None.

(** What holds of the state of a manager between two calls. While the
    session is paused the last gap is the one of the pause: it is open,
    or it was closed by a resume that the recorder refused, which has
    also added a segment. *)
Definition session_ok (st : state) : Prop :=
  match currentRecording st with
  | None => isPaused st = false /\ pauseStartTime st = None
  | Some rec =>
      (exists first rest, r_segments rec = first :: rest
                          /\ s_path first = r_outputPath rec) /\
      if isPaused st then
        exists t init g,
          pauseStartTime st = Some t /\
          r_gaps rec = init ++ [g] /\
          Forall gap_closed init /\
          g_start g = t /\
          ((gap_open g /\
            (length (r_gaps rec) <= length (r_segments rec))%nat)
           \/ (gap_closed g /\
               (length (r_gaps rec) < length (r_segments rec))%nat))
      else
        pauseStartTime st = None /\
        Forall gap_closed (r_gaps rec) /\
        (length (r_gaps rec) < length (r_segments rec))%nat
  end.

(** The paths of the segments after the first. *)
Definition later_paths (segments : list rec_segment) : list string :=
  List.map s_path (drop 1 segments).

End Session.

(* ===================================================================== *)
(** * Vocabulary of the properties of the merged text *)
(* ===================================================================== *)

Module TextProps.

(** Every white space character of [s] is a space that follows a
    character that is not white space; [after_ws] tells whether white
    space comes just before [s]. *)
Fixpoint single_spaced (after_ws : bool) (s : string) : Prop :=
  match s with
  | EmptyString => True
  | String c s' =>
      if JS.is_ws c
      then c = " "%char /\ after_ws = false /\ single_spaced true s'
      else single_spaced false s'
  end.

(** [s] does not begin with white space. *)
Definition starts_clean (s : string) : Prop :=
  match s with
  | EmptyString => True
  | String c _ => JS.is_ws c = false
  end.

(** [s] does not end with white space. *)
Fixpoint ends_clean (s : string) : Prop :=
  match s with
  | EmptyString => True
  | String c EmptyString => JS.is_ws c = false
  | String _ s' => ends_clean s'
  end.

End TextProps.

(* ===================================================================== *)
(** * process-cleanup.js: the temporary files *)
(* ===================================================================== *)

Module ProcessCleanup.

(** [tempFiles] is a [Set]: it is kept as the list of its elements in
    the order of their insertion, each once. *)
Definition set_add (p : string) (s : list string) : list string :=
  if bool_decide (p ∈ s) then s else s ++ [p].

Definition set_delete (p : string) (s : list string) : list string :=
  List.filter (fun q => negb (String.eqb q p)) s.

(** [trackTempFile(filePath)]. *)
Definition trackTempFile (filePath : string) (tempFiles : list string)
  : list string :=
  set_add filePath tempFiles.

(** How [fs.unlink] fails. *)
Inductive unlink_error :=
| ENOENT
| OtherError (message : string).

(** [fs.unlink(p)] on the set [files] of the paths that exist.
    [blocked p] is the error other than ENOENT with which the system
    answers for the path [p] (ENOTDIR, EACCES, EPERM, EBUSY, ...),
    whether there is a file at [p] or not; when it has none, a path that
    exists is removed and a path that does not exist gives ENOENT. *)
Definition fs_unlink (blocked : string -> option string) (p : string)
           (files : gset string) : gset string * option unlink_error :=
  match blocked p with
  | Some message => (files, Some (OtherError message))
  | None =>
      if bool_decide (p ∈ files) then (files ∖ {[ p ]}, None)
      else (files, Some ENOENT)
  end.

(** What [removeTempFile] resolves with. *)
Inductive remove_result :=
| Removed                         (* { success: true } *)
| AlreadyRemoved                  (* { success: true, message: 'File already removed' } *)
| NotRemoved (error : string).    (* { success: false, error } *)

(** [removeTempFile(filePath)]. *)
Definition removeTempFile (blocked : string -> option string)
           (filePath : string) (tempFiles : list string) (files : gset string)
  : list string * gset string * remove_result :=
  match fs_unlink blocked filePath files with
  | (files', None) => (set_delete filePath tempFiles, files', Removed)
  | (_, Some ENOENT) => (set_delete filePath tempFiles, files, AlreadyRemoved)
  | (_, Some (OtherError message)) => (tempFiles, files, NotRemoved message)
  end.

(** [removeAllTempFiles()]: the loop visits the elements that the set
    has when it starts, in the order of their insertion; deleting the
    element visited does not disturb the iteration. *)
Definition removeAllTempFiles (blocked : string -> option string)
           (tempFiles : list string) (files : gset string)
  : list string * gset string * list (string * remove_result) :=
  fold_left
    (fun acc filePath =>
       let '(temp, fs, results) := acc in
       let '(temp', fs', result) := removeTempFile blocked filePath temp fs in
       (temp', fs', results ++ [(filePath, result)]))
    tempFiles (tempFiles, files, []).

End ProcessCleanup.

(* ===================================================================== *)
(** * memory-monitor.js *)
(* ===================================================================== *)

Module MemoryMonitor.

Record options := mkOptions {
  o_warningThreshold  : option Z;
  o_criticalThreshold : option Z;
  o_autoGC            : option bool;
}.

Record config := mkConfig {
  warningThreshold  : Z;
  criticalThreshold : Z;
  autoGC            : bool;
}.

Record stats := mkStats {
  peakHeapUsed  : Z;
  peakHeapTotal : Z;
  gcCount       : nat;
  lastGC        : option Z;
}.

(** [x || d] for an optional number. *)
Definition or_number (x : option Z) (d : Z) : Z :=
  match x with
  | Some 0 | None => d
  | Some z => z
  end.

Definition constructor (o : options) : config * stats :=
  ({| warningThreshold := or_number (o_warningThreshold o) (400 * 1024 * 1024);
      criticalThreshold := or_number (o_criticalThreshold o) (500 * 1024 * 1024);
      autoGC := default true (o_autoGC o) |},
   {| peakHeapUsed := 0; peakHeapTotal := 0; gcCount := 0%nat;
      lastGC := None |}).

(** [process.memoryUsage()]. *)
Record usage := mkUsage {
  heapUsed  : Z;
  heapTotal : Z;
  external  : Z;
  rss       : Z;
}.

Inductive event :=
| Critical (heapUsed heapTotal threshold : Z)
| Warning (heapUsed heapTotal threshold : Z)
| Gc (freed heapUsed : Z)
| GcUnavailable
| Stats (u : usage) (peakHeapUsed peakHeapTotal : Z).

(** [forceGC()]. [gc] is [None] when [global.gc] is not there, and else
    the heap used before and after the collection and the clock. *)
Definition forceGC (st : stats) (gc : option (Z * Z * Z))
  : stats * list event :=
  match gc with
  | Some (before, after, now) =>
      ({| peakHeapUsed := peakHeapUsed st;
          peakHeapTotal := peakHeapTotal st;
          gcCount := S (gcCount st);
          lastGC := Some now |},
       [ Gc (before - after) after ])
  | None => (st, [ GcUnavailable ])
  end.

(** [_checkMemory()]: the statistics, the events emitted in order, and
    whether [suggestGC] has put off a [forceGC] to a later turn. *)
Definition _checkMemory (cfg : config) (st : stats) (u : usage)
           (gc : option (Z * Z * Z)) : stats * list event * bool :=
  let st1 :=
    {| peakHeapUsed := if bool_decide (heapUsed u > peakHeapUsed st)
                       then heapUsed u else peakHeapUsed st;
       peakHeapTotal := if bool_decide (heapTotal u > peakHeapTotal st)
                        then heapTotal u else peakHeapTotal st;
       gcCount := gcCount st;
       lastGC := lastGC st |} in
  let '(st2, events, deferred) :=
    if bool_decide (heapUsed u >= criticalThreshold cfg) then
      let critical :=
        Critical (heapUsed u) (heapTotal u) (criticalThreshold cfg) in
      if autoGC cfg
      then let '(st', evs) := forceGC st1 gc in (st', critical :: evs, false)
      else (st1, [ critical ], false)
    else if bool_decide (heapUsed u >= warningThreshold cfg) then
      (st1, [ Warning (heapUsed u) (heapTotal u) (warningThreshold cfg) ],
       autoGC cfg && bool_decide (is_Some gc))
    else (st1, [], false) in
  (st2,
   events ++ [ Stats u (peakHeapUsed st1) (peakHeapTotal st1) ],
   deferred).

(** One turn of the timer: [_checkMemory] and then the [forceGC] that
    [suggestGC] has put off with [setImmediate], if it has put one off;
    the callback runs in the check phase of the same turn of the event
    loop, before the timer fires again. [fst c] is the memory in use at
    the check, [fst (snd c)] is what [global.gc] does at the check and
    [snd (snd c)] what it does when the collection put off runs. *)
Definition tick (cfg : config) (st : stats)
           (c : usage * (option (Z * Z * Z) * option (Z * Z * Z))) : stats :=
  let '(st', _, deferred) := _checkMemory cfg st (fst c) (fst (snd c)) in
  if deferred then fst (forceGC st' (snd (snd c))) else st'.

(** The turns of the timer one after the other: the statistics after
    the last. *)
Definition check_all (cfg : config) (st : stats)
           (checks : list (usage * (option (Z * Z * Z) * option (Z * Z * Z))))
  : stats :=
  fold_left (tick cfg) checks st.

End MemoryMonitor.

(* ===================================================================== *)
(** * Properties of the temporary files and of the memory monitor *)
(* ===================================================================== *)

Module CleanupProps.

Import ProcessCleanup.

(** The removal of [p] is refused: the system answers with an error
    other than ENOENT. *)
Definition stuck (blocked : string -> option string) (p : string) : bool :=
  bool_decide (is_Some (blocked p)).

(** What the removal of [p] answers on the files [files]. *)
Definition outcome (blocked : string -> option string) (files : gset string)
           (p : string) : remove_result :=
  match blocked p with
  | Some message => NotRemoved message
  | None => if bool_decide (p ∈ files) then Removed else AlreadyRemoved
  end.

(** Four tracked paths: a file that can be removed, a file that is
    busy, a path that is gone already, and a path under a file, for which
    the system answers ENOTDIR although nothing exists there. *)
Definition tracked : list string :=
  ["a.wav"; "b.wav"; "gone.wav"; "b.wav/x"].

Definition disk : gset string := {[ "a.wav"; "b.wav"; "x.wav" ]}.

Definition refusals (p : string) : option string :=
  if String.eqb p "b.wav" then Some "EBUSY"
  else if String.eqb p "b.wav/x" then Some "ENOTDIR"
  else None.

(** The turn of the timer [c] ends with one collection more: [autoGC]
    is on, [global.gc] is there at the check, and the heap is at the
    critical threshold or above, or it is at the warning threshold or
    above and [global.gc] is still there when the collection that was
    put off runs. *)
Definition collects (cfg : MemoryMonitor.config)
           (c : MemoryMonitor.usage
                * (option (Z * Z * Z) * option (Z * Z * Z))) : bool :=
  MemoryMonitor.autoGC cfg
  && bool_decide (is_Some (fst (snd c)))
  && (bool_decide (MemoryMonitor.heapUsed (fst c)
                   >= MemoryMonitor.criticalThreshold cfg)
      || (bool_decide (MemoryMonitor.heapUsed (fst c)
                       >= MemoryMonitor.warningThreshold cfg)
          && bool_decide (is_Some (snd (snd c))))).

End CleanupProps.

(* ===================================================================== *)
(** * Properties of the merger *)
(* ===================================================================== *)

Module MergerProofs.
Import TranscriptMerger Props.

(** ** Strings *)

Lemma prefix_spec (t s : string) :
  String.prefix t s = true <-> exists b, s = t +:+ b.
Proof.
  revert s. induction t as [|c t IH]; intros s; simpl.
  - split; [intros _; by exists s | by destruct s].
  - destruct s as [|d s]; simpl.
    + split; [done | intros [b Hb]; discriminate].
    + destruct (Ascii.ascii_dec c d) as [->|Hne].
      * rewrite IH. split; intros [b Hb]; exists b.
        -- by rewrite Hb.
        -- by injection Hb.
      * split; [done | intros [b Hb]; injection Hb; congruence].
Qed.

Lemma includes_unfold (s t : string) :
  JS.includes s t =
    if String.prefix t s then true
    else match s with
         | EmptyString => false
         | String _ s' => JS.includes s' t
         end.
Proof. by destruct s. Qed.

Lemma includes_spec (s t : string) :
  JS.includes s t = true <-> substring_of t s.
Proof.
  induction s as [|c s IH]; rewrite includes_unfold;
    destruct (String.prefix t _) eqn:Hp.
  - split; [intros _ | done].
    apply prefix_spec in Hp as [b Hb]. by exists "", b.
  - split; [done | intros [a [b Hab]]].
    destruct a; simpl in Hab; [|discriminate].
    assert (String.prefix t "" = true) by (apply prefix_spec; by exists b).
    congruence.
  - split; [intros _ | done].
    apply prefix_spec in Hp as [b Hb]. by exists "", b.
  - rewrite IH. split.
    + intros [a [b Hab]]. exists (String c a), b. simpl. by rewrite Hab.
    + intros [a [b Hab]]. destruct a as [|d a]; simpl in Hab.
      * assert (String.prefix t (String c s) = true)
          by (apply prefix_spec; by exists b).
        congruence.
      * injection Hab as _ Hab. by exists a, b.
Qed.

Lemma includes_empty (s : string) : JS.includes s "" = true.
Proof. destruct s; reflexivity. Qed.

Lemma truthy_and_absent (p c : string) :
  JS.truthy c && negb (JS.includes p c) = negb (JS.includes p c).
Proof.
  destruct c; simpl; [by rewrite includes_empty | done].
Qed.


(** ** The deduplication pass *)

Lemma dedup_fold (rest kept : list segment) (previous : segment) :
  result_of (fold_left dedup_step rest (kept, previous))
  = kept ++ dedup_from previous rest.
Proof.
  revert kept previous.
  induction rest as [|current rest IH]; intros kept previous; simpl.
  - reflexivity.
  - repeat case_bool_decide; rewrite IH; try reflexivity.
    by rewrite <- app_assoc.
Qed.

Lemma _deduplicateSegments_cons (first : segment) (rest : list segment) :
  _deduplicateSegments (first :: rest) = dedup_from first rest.
Proof. unfold _deduplicateSegments. by rewrite dedup_fold. Qed.

Lemma dedup_from_head (previous : segment) (rest : list segment) :
  exists h t, dedup_from previous rest = h :: t
              /\ seg_start h = seg_start previous.
Proof.
  revert previous.
  induction rest as [|current rest IH]; intros previous; simpl.
  - by exists previous, [].
  - repeat case_bool_decide.
    + destruct (IH (extend previous current)) as (h & t & -> & Hs).
      by exists h, t.
    + apply IH.
    + by eexists _, _.
Qed.

Lemma dedup_from_follows (previous : segment) (rest : list segment) :
  StronglySorted by_start (previous :: rest) ->
  Sorted follows (dedup_from previous rest).
Proof.
  revert previous.
  induction rest as [|current rest IH]; intros previous Hs; simpl.
  - repeat constructor.
  - apply StronglySorted_inv in Hs as [Hrest Hprev].
    apply StronglySorted_inv in Hrest as Hrest'.
    destruct Hrest' as [Hrest' Hcur].
    apply Forall_cons in Hprev as [Hpc Hprev].
    repeat case_bool_decide.
    + apply IH. by constructor.
    + apply IH. by constructor.
    + constructor; [by apply IH|].
      destruct (dedup_from_head current rest) as (h & t & -> & Hh).
      constructor. unfold follows, by_start in *. lia.
Qed.

Lemma dedup_from_well_timed (previous : segment) (rest : list segment) :
  Forall well_timed (previous :: rest) ->
  Forall well_timed (dedup_from previous rest).
Proof.
  revert previous.
  induction rest as [|current rest IH]; intros previous Hw; simpl.
  - done.
  - apply Forall_cons in Hw as [Hp Hw].
    apply Forall_cons in Hw as [Hc Hw].
    repeat case_bool_decide.
    + apply IH. constructor; [|done].
      unfold well_timed in *; simpl. lia.
    + apply IH. by constructor.
    + constructor; [done|]. apply IH. by constructor.
Qed.

(** ** The sort *)

Lemma insert_by_start_perm (x : segment) (l : list segment) :
  insert_by_start x l ≡ₚ x :: l.
Proof.
  induction l as [|y l IH]; simpl; [done|].
  case_bool_decide; [done|]. rewrite IH. apply Permutation_swap.
Qed.

Lemma sort_by_start_perm (l : list segment) : sort_by_start l ≡ₚ l.
Proof.
  induction l as [|x l IH]; simpl; [done|].
  by rewrite insert_by_start_perm, IH.
Qed.

Lemma insert_by_start_sorted (x : segment) (l : list segment) :
  StronglySorted by_start l -> StronglySorted by_start (insert_by_start x l).
Proof.
  induction 1 as [|y l Hl IH Hy]; simpl.
  - repeat constructor.
  - case_bool_decide.
    + constructor; [by constructor|].
      constructor; [done|].
      eapply Forall_impl; [exact Hy|].
      unfold by_start; intros; lia.
    + constructor; [done|].
      rewrite insert_by_start_perm. constructor; [|done].
      unfold by_start; lia.
Qed.

Lemma sort_by_start_sorted (l : list segment) :
  StronglySorted by_start (sort_by_start l).
Proof.
  induction l as [|x l IH]; simpl; [constructor|].
  by apply insert_by_start_sorted.
Qed.

(** The sort is stable: segments with the same start keep their order. *)
Lemma sort_by_start_stable (k : Z) (l : list segment) :
  List.filter (fun s => bool_decide (seg_start s = k)) (sort_by_start l)
  = List.filter (fun s => bool_decide (seg_start s = k)) l.
Proof.
  induction l as [|x l IH]; simpl; [done|].
  rewrite <- IH. generalize (sort_by_start l) as m. clear IH.
  induction m as [|y m IHm]; simpl; [done|].
  destruct (bool_decide (seg_start x <= seg_start y)) eqn:Hxy; simpl;
    [done|].
  rewrite IHm.
  destruct (bool_decide (seg_start x = k)) eqn:Hx;
    destruct (bool_decide (seg_start y = k)) eqn:Hy; try done.
  apply bool_decide_eq_true in Hx, Hy.
  apply bool_decide_eq_false in Hxy. lia.
Qed.

(** ** The merged segments *)

Lemma merge_segments (ts : list transcript_input) (D : Z) :
  m_segments (merge ts D)
  = _deduplicateSegments (sort_by_start (all_segments (normalize_all ts D))).
Proof. by destruct ts. Qed.

(** For every input, the merged segments are in the order of their
    start times and none starts before the one before it has ended. *)
Lemma merged_segments_follow (ts : list transcript_input) (D : Z) :
  Sorted follows (m_segments (merge ts D)).
Proof.
  rewrite merge_segments.
  pose proof (sort_by_start_sorted (all_segments (normalize_all ts D))) as Hs.
  destruct (sort_by_start _) as [|first rest]; [constructor|].
  rewrite _deduplicateSegments_cons. by apply dedup_from_follows.
Qed.

(** When every normalized segment ends no earlier than it starts, so
    does every merged segment. *)
Lemma merged_well_timed (ts : list transcript_input) (D : Z) :
  Forall well_timed (all_segments (normalize_all ts D)) ->
  Forall well_timed (m_segments (merge ts D)).
Proof.
  intros Hw. rewrite merge_segments.
  rewrite <- (sort_by_start_perm (all_segments _)) in Hw.
  destruct (sort_by_start _) as [|first rest]; [constructor|].
  rewrite _deduplicateSegments_cons. by apply dedup_from_well_timed.
Qed.

(** A segment whose shifted start is not negative is normalized to
    one that ends no earlier than it starts. *)
Lemma adjust_segment_well_timed (off : Z) (index : nat) (seg : raw_segment) :
  0 <= match rs_start seg with
       | Some s => s + off
       | None => off + Z.of_nat index * 5
       end ->
  well_timed (adjust_segment off index seg).
Proof. unfold well_timed, adjust_segment; simpl. lia. Qed.


(** ** One step of the pass *)

(** C2, as stated, does not hold: the next segment [inner] starts
    before the kept segment [outer] ends and its text does not occur in
    the text of [outer], yet the step leaves [outer] as it is and the
    text of [inner] is not appended, because [inner] does not end after
    [outer]. *)
Lemma dedup_step_contained_text_dropped :
  seg_start Scenario.inner < seg_end Scenario.outer /\
  ~ substring_of (seg_text Scenario.inner) (seg_text Scenario.outer) /\
  dedup_step ([], Scenario.outer) Scenario.inner = ([], Scenario.outer) /\
  _deduplicateSegments [Scenario.outer; Scenario.inner] = [Scenario.outer] /\
  seg_text (snd (dedup_step ([], Scenario.outer) Scenario.inner))
    <> text_appended_unless_contained Scenario.outer Scenario.inner.
Proof.
  split; [vm_compute; reflexivity|].
  split.
  { rewrite <- includes_spec. vm_compute. discriminate. }
  split; [reflexivity|].
  split; [reflexivity|].
  vm_compute. discriminate.
Qed.

(** C2, amended: in one step of the deduplication pass over the
    segments sorted by start time, when the next segment starts
    strictly before the kept segment ends, the kept segment stays the
    last entry, keeps its start and gets the later of the two ends; the
    text of the next segment is appended to it, after a space, if and
    only if the next segment ends strictly after the kept one and its
    text is not already a substring of the kept text. When the next
    segment starts at or after the end of the kept one, it is added
    unchanged as a new entry after it. *)
Theorem dedup_step_overlap_or_append
        (kept : list segment) (previous current : segment) :
  (seg_start current < seg_end previous ->
   exists previous',
     dedup_step (kept, previous) current = (kept, previous') /\
     seg_start previous' = seg_start previous /\
     seg_end previous' = Z.max (seg_end previous) (seg_end current) /\
     (seg_end previous < seg_end current /\
      ~ substring_of (seg_text current) (seg_text previous) ->
      seg_text previous'
      = seg_text previous +:+ " " +:+ seg_text current) /\
     (~ (seg_end previous < seg_end current /\
         ~ substring_of (seg_text current) (seg_text previous)) ->
      seg_text previous' = seg_text previous))
  /\
  (seg_end previous <= seg_start current ->
   dedup_step (kept, previous) current = (kept ++ [previous], current)).
Proof.
  split.
  - intros Hov. unfold dedup_step.
    rewrite bool_decide_eq_true_2 by done.
    case_bool_decide as Hend.
    + exists (extend previous current).
      split; [done|]. split; [done|].
      split; [simpl; lia|].
      unfold extend; simpl. rewrite truthy_and_absent.
      destruct (JS.includes (seg_text previous) (seg_text current)) eqn:Hin;
        simpl.
      * apply includes_spec in Hin. split; [tauto | done].
      * assert (~ substring_of (seg_text current) (seg_text previous)) as Hn.
        { rewrite <- includes_spec. congruence. }
        split; [done|]. intros Hnot. exfalso. apply Hnot. split; [lia|done].
    + exists previous.
      split; [done|]. split; [done|].
      split; [lia|]. split; [lia | done].
  - intros Hno. unfold dedup_step.
    rewrite bool_decide_eq_false_2 by lia. done.
Qed.

Lemma dedup_step_overlap_or_append_witness :
  (exists previous',
     dedup_step ([], Scenario.outer) Scenario.later = ([], previous') /\
     seg_end previous' = 12 /\ seg_text previous' = "a b")
  /\
  dedup_step ([], Scenario.outer) (Scenario.seg 10 12 "b")
  = ([Scenario.outer], Scenario.seg 10 12 "b").
Proof.
  split.
  - destruct (proj1 (dedup_step_overlap_or_append
                       [] Scenario.outer Scenario.later))
      as (p & Hstep & _ & Hend & Happ & _).
    { vm_compute. reflexivity. }
    exists p. split; [exact Hstep|]. split; [exact Hend|].
    apply Happ. split.
    + vm_compute. reflexivity.
    + rewrite <- includes_spec. vm_compute. discriminate.
  - apply (proj2 (dedup_step_overlap_or_append
                    [] Scenario.outer (Scenario.seg 10 12 "b"))).
    vm_compute. discriminate.
Defined.

(** ** The invariant of the merged segments *)

(** C8 at an input the normalization was written for, where the code
    differs from it: a transcript whose only segment runs from -5 to -3
    is merged to one segment that starts at 0 and ends at -3, before its
    start. The start is clamped to 0, the end is compared with the
    start as it was before the clamp. *)
Theorem merge_end_before_start :
  List.map timing (m_segments (merge Scenario.early 60)) = [ (0, -3, "x") ] /\
  ~ Forall well_timed (m_segments (merge Scenario.early 60)).
Proof.
  split; [reflexivity|].
  intros H. apply Forall_cons in H as [H _].
  vm_compute in H. by apply H.
Qed.

(** ** The language *)

Lemma normalized_language_truthy (t : transcript_input) (off : Z) :
  JS.truthy (n_language (_normalizeTranscript t off)) = true.
Proof.
  destruct t as [s|segs|o|]; try reflexivity.
  unfold _normalizeTranscript; simpl.
  destruct (to_language o) as [l|]; simpl; [|reflexivity].
  destruct (JS.truthy l) eqn:Hl; [exact Hl | reflexivity].
Qed.

(** The merged language is the one of the first normalized transcript:
    the language field of the first input when it is not empty, and
    [unknown] otherwise, whatever the later transcripts say. *)
Lemma merge_language_of_first
      (t : transcript_input) (ts : list transcript_input) (D : Z) :
  m_language (merge (t :: ts) D) = default "unknown" (language_field t).
Proof.
  unfold merge, pick_language, normalize_all; simpl.
  generalize (Z.of_nat 0 * D) as off; intros off.
  rewrite normalized_language_truthy; simpl.
  pose proof (normalized_language_truthy t off) as Ht.
  unfold JS.or_str. rewrite Ht.
  destruct t as [s|segs|o|]; try reflexivity.
  unfold _normalizeTranscript, language_field; simpl.
  destruct (to_language o) as [l|]; simpl; [|reflexivity].
  by destruct (JS.truthy l).
Qed.

(** C9 at an input where the code differs from it: the first
    transcript has no language and the second is English; the first
    input transcript with a language that is not empty is the second,
    but the merged language is [unknown]. *)
Theorem merge_language_second_ignored :
  first_language Scenario.second_has_language = "en" /\
  m_language (merge Scenario.second_has_language 60) = "unknown".
Proof. split; reflexivity. Qed.

End MergerProofs.

(* ===================================================================== *)
(** * Properties of the transcription job *)
(* ===================================================================== *)

Module WhisperProofs.
Import TranscriptMerger Chunk WhisperProcessor Props.

(** ** Time stamps of the merged segments *)

(** C1 at inputs where the code differs from it. Two chunks of 60
    seconds are both transcribed, the second to one segment from 0 to 2:
    the merged segment runs from 120 to 122, not from 60 to 62, with the
    local engine and with the remote pool alike; the offset of a chunk
    is added before [merge] is called and once more by [merge]. When the
    first chunk fails and the second succeeds, the remote path merges
    the segment at 0 to 2: the position among the successes has replaced
    the index of the chunk. *)
Theorem second_chunk_offset_applied_twice :
  (exists m, Scenario.transcribe Scenario.local Scenario.two_chunks = Return m
             /\ List.map timing (m_segments m)
                = [ (0, 2, "Hello"); (120, 122, "World") ]) /\
  (exists m, Scenario.transcribe Scenario.remote Scenario.two_chunks = Return m
             /\ List.map timing (m_segments m)
                = [ (0, 2, "Hello"); (120, 122, "World") ]) /\
  (exists m, Scenario.transcribe Scenario.remote Scenario.first_fails = Return m
             /\ List.map timing (m_segments m) = [ (0, 2, "World") ]).
Proof. repeat split; eexists; split; reflexivity. Qed.

(** ** The scenario of three chunks *)

(** C3, as stated, does not hold: with the local engine and with the
    remote pool, the job returns a transcript that is not the expected
    one. *)
Lemma three_chunks_not_as_expected :
  (exists m, Scenario.transcribe Scenario.local Scenario.three_chunks = Return m
             /\ ~ Scenario.expected_of_three m) /\
  (exists m, Scenario.transcribe Scenario.remote Scenario.three_chunks = Return m
             /\ ~ Scenario.expected_of_three m).
Proof.
  split; eexists; (split; [reflexivity|]);
    intros (_ & _ & Hcount & _); vm_compute in Hcount; discriminate.
Qed.

(** C3, amended: with three chunks of 60 seconds of which chunk 0 is
    transcribed to Hello, chunk 1 to World and chunk 2 fails, the merged
    transcript has the text Hello World, two segments with the texts
    Hello and World of which the first runs from 0 to 2, a chunk count
    of 2, the number of transcripts given to the merger, and a segment
    count of 2; with the local engine and with the remote pool. *)
Theorem three_chunks_merged :
  forall p, p = Scenario.local \/ p = Scenario.remote ->
  exists m,
    Scenario.transcribe p Scenario.three_chunks = Return m /\
    m_text m = "Hello World" /\
    List.map seg_text (m_segments m) = [ "Hello"; "World" ] /\
    head (List.map timing (m_segments m)) = Some (0, 2, "Hello") /\
    m_chunkCount m = 2%nat /\
    m_segmentCount m = 2%nat.
Proof.
  intros p [-> | ->]; eexists; (split; [reflexivity|]);
    repeat split; reflexivity.
Qed.

Lemma three_chunks_merged_witness :
  exists m,
    Scenario.transcribe Scenario.local Scenario.three_chunks = Return m /\
    m_text m = "Hello World" /\
    List.map seg_text (m_segments m) = [ "Hello"; "World" ] /\
    head (List.map timing (m_segments m)) = Some (0, 2, "Hello") /\
    m_chunkCount m = 2%nat /\
    m_segmentCount m = 2%nat.
Proof. apply (three_chunks_merged Scenario.local). left. reflexivity. Defined.

(** ** The job slot *)

Lemma try_block_not_busy (cfg : config) (st : state) (w : world) :
  snd (try_block cfg st w) <> Throw AlreadyInProgress.
Proof.
  unfold try_block.
  destruct (w_mkdir w); simpl; [|discriminate].
  destruct (w_split w) as [chunks|]; simpl; [|discriminate].
  destruct (groq_branch cfg (useGroq st) w chunks) as [fromGroq useGroq'].
  destruct (w_write_json w); simpl; [|discriminate].
  destruct (w_write_txt w); simpl; discriminate.
Qed.

(** A call that finds the slot free leaves it free, however it ends. *)
Lemma processAudio_releases (cfg : config) (st : state)
      (a o : string) (w : world) :
  isProcessing st = false ->
  isProcessing (fst (processAudio cfg st a o w)) = false /\
  currentJob (fst (processAudio cfg st a o w)) = None /\
  snd (processAudio cfg st a o w) <> Throw AlreadyInProgress.
Proof.
  intros Hfree. unfold processAudio. rewrite Hfree.
  match goal with
  | |- context [try_block cfg ?s w] =>
      pose proof (try_block_not_busy cfg s w) as Hnb;
      destruct (try_block cfg s w) as [st2 r]
  end.
  simpl in *. done.
Qed.

(** A call that finds a job in progress is rejected and changes nothing. *)
Lemma processAudio_busy (cfg : config) (st : state)
      (a o : string) (w : world) :
  isProcessing st = true ->
  processAudio cfg st a o w = (st, Throw AlreadyInProgress).
Proof. intros Hbusy. unfold processAudio. by rewrite Hbusy. Qed.

Lemma run_jobs_released (cfg : config) (st : state)
      (calls : list (string * string * world)) :
  isProcessing st = false ->
  Forall (fun sr => isProcessing (fst sr) = false /\
                    currentJob (fst sr) = None /\
                    snd sr <> Throw AlreadyInProgress)
         (run_jobs cfg st calls).
Proof.
  revert st. induction calls as [|[[a o] w] calls IH]; intros st Hfree;
    simpl; [constructor|].
  pose proof (processAudio_releases cfg st a o w Hfree) as Hrel.
  constructor; [exact Hrel|].
  apply IH. apply Hrel.
Qed.

(** C10: for a processor as its constructor makes it and any calls of
    [processAudio] made one after the other, with whatever the outside
    world does in each (a directory that cannot be made, a failed split,
    workers that fail, a failed write of a transcript file), after every
    call [isProcessing] is false and [currentJob] is null, and no call is
    rejected with 'Transcription already in progress'. *)
Theorem job_slot_always_released
        (o : options) (calls : list (string * string * world)) :
  Forall (fun sr => isProcessing (fst sr) = false /\
                    currentJob (fst sr) = None /\
                    snd sr <> Throw AlreadyInProgress)
         (run_jobs (fst (constructor o)) (snd (constructor o)) calls).
Proof. apply run_jobs_released. reflexivity. Qed.

(** A job whose split fails, then a job on a good recording: the second
    is not rejected and returns its transcript. *)
Example failed_job_then_next_job_runs :
  List.map snd
    (run_jobs (fst Scenario.local) (snd Scenario.local)
       [ ("a.wav", "out", Scenario.split_fails);
         ("b.wav", "out", Scenario.two_chunks) ])
  = [ Throw SplitFailed;
      Scenario.transcribe Scenario.local Scenario.two_chunks ].
Proof. reflexivity. Qed.

End WhisperProofs.

(* ===================================================================== *)
(** * Properties of the remote worker pool *)
(* ===================================================================== *)

Module GroqProofs.
Import Chunk GroqProcessor PoolProps.

Lemma getNextApiKey_some (cfg : config) (idx : nat) :
  (idx < length (apiKeys cfg))%nat ->
  exists key, apiKeys cfg !! idx = Some key /\
              getNextApiKey cfg idx
              = inr (key, ((idx + 1) mod length (apiKeys cfg))%nat).
Proof.
  intros Hidx.
  destruct (lookup_lt_is_Some_2 (apiKeys cfg) idx Hidx) as [key Hk].
  exists key. split; [done|]. unfold getNextApiKey.
  destruct (apiKeys cfg) as [|k0 ks] eqn:Hkeys; [simpl in Hidx; lia|].
  by rewrite Hk.
Qed.

(** Every ending of a request but a status 200 with a JSON body is a
    failure of the attempt, the rate-limit response among them. *)
Lemma _transcribeChunk_rejects (r : response) :
  _transcribeChunk r = None <-> forall result, r <> Status200 (Some result).
Proof.
  destruct r as [| |[result|]| | |]; simpl; split; try done.
  intros H. by destruct (H result).
Qed.


Lemma attempts_of_app (c : nat) (l l' : list attempt) :
  attempts_of c (l ++ l') = attempts_of c l ++ attempts_of c l'.
Proof. apply List.filter_app. Qed.

Lemma attempts_of_fresh (c bound : nat) (l : list attempt) :
  Forall (fun a => (a_chunk a < bound)%nat) l -> (bound <= c)%nat ->
  attempts_of c l = [].
Proof.
  intros Hl Hc. induction Hl as [|a l Ha _ IH]; [done|].
  unfold attempts_of in *. cbn [List.filter].
  destruct (Nat.eqb_spec (a_chunk a) c) as [Heq|_]; [lia|done].
Qed.

Lemma attempts_of_one (c : nat) (a : attempt) :
  attempts_of c [a] = if (a_chunk a =? c)%nat then [a] else [].
Proof. reflexivity. Qed.

Lemma numbered_bounded (l : list attempt) (M : nat) :
  List.map a_retryCount l = seq 0 (length l) ->
  Forall (fun a => (a_retryCount a <= M)%nat) l ->
  (length l <= 1 + M)%nat.
Proof.
  destruct (decide (l = [])) as [->|Hne]; [cbn; lia|].
  destruct (exists_last Hne) as (l' & x & ->).
  rewrite List.map_app, length_app. cbn. rewrite Nat.add_1_r, seq_S. cbn.
  intros Hmap Hall. apply app_inj_tail in Hmap as [_ Hx].
  apply Forall_app in Hall as [_ Hall]. apply Forall_cons in Hall as [Hle _].
  lia.
Qed.

Lemma attempts_of_Forall (P : attempt -> Prop) (c : nat) (l : list attempt) :
  Forall P l -> Forall P (attempts_of c l).
Proof.
  intros Hl. rewrite Forall_forall in Hl |- *. intros a Ha.
  apply Hl. apply list_elem_of_In in Ha. apply list_elem_of_In.
  by apply List.filter_In in Ha as [Ha _].
Qed.

Section Pool.
Variable cfg : config.
Variable idx : nat.
Hypothesis Hidx : (idx < length (apiKeys cfg))%nat.

Local Abbreviation n := (length (apiKeys cfg)).

Lemma ok_idle : pool_ok cfg idx 0 (idle idx).
Proof.
  unfold pool_ok, idle. cbn.
  rewrite Nat.add_0_r, Nat.mod_small by done.
  split_and!; try done; constructor.
Qed.

Lemma ok_weaken (b b' : nat) (p : pool) :
  pool_ok cfg idx b p -> (b <= b')%nat -> pool_ok cfg idx b' p.
Proof.
  intros (H1 & H2 & H3 & H4 & H5 & H6) Hb.
  split_and!; try done.
  - eapply Forall_impl; [exact H4|]. cbn. intros a (? & ? & ?).
    split_and!; [done|lia|done].
  - eapply Forall_impl; [exact H5|]. cbn. intros a (? & ?). split; [done|lia].
Qed.

Lemma ok_promise_settled (b : nat) (p : pool) (c : nat)
      (how : error + chunk_transcript) :
  pool_ok cfg idx b p -> pool_ok cfg idx b (promise_settled p c how).
Proof. done. Qed.

Lemma ok_cursor (b : nat) (p : pool) :
  pool_ok cfg idx b p ->
  exists key,
    apiKeys cfg !! currentKeyIndex p = Some key /\
    getNextApiKey cfg (currentKeyIndex p)
    = inr (key, ((idx + S (length (attempts p))) mod n)%nat).
Proof.
  intros (H1 & _).
  assert (currentKeyIndex p < n)%nat as Hlt.
  { rewrite H1. apply Nat.mod_upper_bound. lia. }
  destruct (getNextApiKey_some cfg _ Hlt) as (key & Hkey & Hnext).
  exists key. split; [done|]. rewrite Hnext. do 2 f_equal.
  rewrite H1, Nat.Div0.add_mod_idemp_l. f_equal. lia.
Qed.

(** A request made for a chunk that has no request in flight, numbered
    after the requests it has had. *)
Lemma ok_request_made (b : nat) (p : pool) (a : attempt) (key : string) :
  pool_ok cfg idx b p ->
  apiKeys cfg !! currentKeyIndex p = Some key ->
  a_key a = key ->
  (a_retryCount a <= maxRetries cfg)%nat ->
  (a_chunk a < b)%nat ->
  ((n <= 1)%nat -> a_retryCount a = 0%nat) ->
  length (attempts_of (a_chunk a) (attempts p)) = a_retryCount a ->
  a_chunk a ∉ List.map a_chunk (inFlight p) ->
  pool_ok cfg idx b
          (request_made p ((idx + S (length (attempts p))) mod n)%nat a).
Proof.
  intros (H1 & H2 & H3 & H4 & H5 & H6) Hkey Ha Hretry Hchunk Hone Hlen Hnew.
  unfold pool_ok, request_made. cbn [currentKeyIndex inFlight attempts].
  split_and!.
  - rewrite length_app. cbn. do 2 f_equal. lia.
  - intros j a' Hj. apply lookup_app_Some in Hj as [Hj|[Hge Hj]].
    + by apply H2.
    + apply list_lookup_singleton_Some in Hj as [Hj <-].
      assert (j = length (attempts p)) as -> by lia.
      by rewrite <- H1, Ha.
  - intros c. rewrite attempts_of_app, attempts_of_one.
    destruct (Nat.eqb_spec (a_chunk a) c) as [<-|Hne].
    + rewrite List.map_app, length_app, H3, Hlen. cbn.
      by rewrite Nat.add_1_r, seq_S.
    + by rewrite app_nil_r.
  - apply Forall_app. split; [done|]. by repeat constructor.
  - apply Forall_app. split.
    + rewrite Forall_forall in H5 |- *. intros a' Ha'.
      destruct (H5 a' Ha') as [Hl Hb]. split; [|done].
      rewrite attempts_of_app, attempts_of_one.
      destruct (Nat.eqb_spec (a_chunk a) (a_chunk a')) as [Heq|Hne].
      * exfalso. apply Hnew. rewrite Heq.
        apply list_elem_of_In, in_map, list_elem_of_In, Ha'.
      * by rewrite app_nil_r.
    + constructor; [|constructor]. split; [|done].
      rewrite attempts_of_app, attempts_of_one, Nat.eqb_refl, length_app.
      cbn. lia.
  - rewrite List.map_app. cbn. apply NoDup_app. split_and!; [done| |].
    + intros c Hc Hc'. apply list_elem_of_singleton in Hc'. by subst.
    + apply NoDup_singleton.
Qed.

Lemma ok_processChunk (b c : nat) (p : pool) :
  pool_ok cfg idx b p -> (b <= c)%nat ->
  pool_ok cfg idx (S c) (processChunk cfg c p).
Proof.
  intros Hok Hbc.
  assert (pool_ok cfg idx (S c) p) as Hok' by (eapply ok_weaken; [done|lia]).
  destruct (ok_cursor b p Hok) as (key & Hkey & Hnext).
  unfold processChunk. rewrite Hnext.
  destruct Hok as (_ & _ & _ & H4 & H5 & _).
  apply ok_request_made with (key := key); cbn; try done; try lia.
  - rewrite (attempts_of_fresh c b); [done| |done].
    eapply Forall_impl; [exact H4|]. cbn. by intros a (_ & ? & _).
  - intros Hin. apply list_elem_of_In, in_map_iff in Hin as (a & Ha & Hin).
    apply list_elem_of_In in Hin. rewrite Forall_forall in H5.
    destruct (H5 a Hin) as [_ Hlt]. lia.
Qed.

Lemma ok_settle (b : nat) (p : pool) (ev : nat * response) :
  pool_ok cfg idx b p -> pool_ok cfg idx b (settle cfg ev p).
Proof.
  intros Hok. unfold settle.
  destruct (inFlight p !! fst ev) as [a|] eqn:Ha; [|done].
  pose proof Hok as (H1 & H2 & H3 & H4 & H5 & H6).
  pose proof (take_drop_middle _ _ _ Ha) as Hmid.
  set (l1 := take (fst ev) (inFlight p)) in *.
  set (l2 := drop (S (fst ev)) (inFlight p)) in *.
  assert (delete (fst ev) (inFlight p) = l1 ++ l2) as Hdel
      by apply delete_take_drop.
  rewrite Hdel.
  set (p0 := {| currentKeyIndex := currentKeyIndex p;
                inFlight := l1 ++ l2;
                attempts := attempts p;
                promises := promises p |}).
  rewrite <- Hmid in H5, H6.
  apply Forall_app in H5 as [H5a H5]. apply Forall_cons in H5 as [[Hlen Hb] H5b].
  rewrite List.map_app in H6. cbn in H6.
  apply NoDup_app in H6 as (H6a & H6ab & H6b).
  apply NoDup_cons in H6b as [H6c H6b].
  assert (pool_ok cfg idx b p0) as Hok0.
  { unfold pool_ok, p0. cbn [currentKeyIndex attempts inFlight].
    split_and!; try done.
    - apply Forall_app. by split.
    - rewrite List.map_app. apply NoDup_app. split_and!; [done| |done].
      intros c Hc Hc'. apply (H6ab c Hc). apply elem_of_cons. by right. }
  assert (a_chunk a ∉ List.map a_chunk (inFlight p0)) as Hnew.
  { unfold p0. cbn [inFlight]. rewrite List.map_app. intros Hin.
    apply elem_of_app in Hin as [Hin|Hin]; [|done].
    apply (H6ab _ Hin). apply elem_of_cons. by left. }
  unfold _transcribeWithRetry.
  destruct (_transcribeChunk (snd ev)) as [t|]; [by apply ok_promise_settled|].
  destruct (Nat.ltb_spec (a_retryCount a) (maxRetries cfg)) as [Hlt|Hge];
    [|by apply ok_promise_settled].
  destruct (Nat.ltb_spec 1 n) as [Hmany|Hone];
    [|by apply ok_promise_settled].
  cbn [andb].
  destruct (ok_cursor b p0 Hok0) as (key & Hkey & Hnext).
  rewrite Hnext.
  apply ok_request_made with (key := key); cbn [a_chunk a_retryCount a_key];
    try done; try lia.
Qed.

Lemma ok_start_batch (m : nat) :
  forall (b i : nat) (p : pool),
    pool_ok cfg idx b p -> (b <= i)%nat ->
    pool_ok cfg idx (i + m)
            (fold_left (fun p chunkIndex => processChunk cfg chunkIndex p)
                       (seq i m) p).
Proof.
  induction m as [|m IH]; intros b i p Hok Hb; cbn [seq fold_left].
  - eapply ok_weaken; [done|lia].
  - replace (i + S m)%nat with (S i + m)%nat by lia.
    apply (IH (S i)); [|lia]. by apply (ok_processChunk b).
Qed.

Lemma ok_events (events : list (nat * response)) :
  forall (b : nat) (p : pool),
    pool_ok cfg idx b p ->
    pool_ok cfg idx b (fold_left (fun p ev => settle cfg ev p) events p).
Proof.
  induction events as [|ev events IH]; intros b p Hok; cbn [fold_left];
    [done|].
  apply IH. by apply ok_settle.
Qed.

Lemma ok_pool_loop (schedule : list (list (nat * response))) (total : nat) :
  forall (b i : nat) (p : pool),
    pool_ok cfg idx b p -> (b <= i)%nat ->
    exists b', pool_ok cfg idx b' (pool_loop cfg schedule total i p).
Proof.
  induction schedule as [|events later IH]; intros b i p Hok Hb;
    cbn [pool_loop]; [by exists b|].
  destruct (i <? total)%nat; [|by exists b].
  set (m := Nat.min (maxConcurrent cfg) (total - i)).
  assert (pool_ok cfg idx (i + m)
            (fold_left (fun p ev => settle cfg ev p) events
                       (start_batch cfg total i p))) as Hok'.
  { apply ok_events. unfold start_batch. fold m. by apply (ok_start_batch m b). }
  destruct (inFlight _) eqn:Hfly; [|by eexists].
  apply (IH (i + m)%nat); [done|]. unfold m. lia.
Qed.


(** C7: at every moment of [processChunksParallel], whatever the
    requests that have ended, in whatever order and however: the
    requests made for one chunk are numbered 0, 1, 2, ... and there are
    at most [1 + maxRetries] of them, the first attempt and at most
    [maxRetries] retries; with a single key none of them is a retry;
    every request, first attempt or retry, of whatever chunk, took the
    key under the one cursor of the pool and moved the cursor on by
    one, circularly, so that the requests, in the order in which they
    were made, took the keys in the circular order. When a request in
    flight ends, a retry is made exactly when it failed (every ending but
    a status 200 with a JSON body is a failure, the rate-limit response
    among them), fewer than [maxRetries] retries were made for the chunk
    and more than one key is configured; the retry is made at once and
    with the key under the cursor; otherwise the promise of the chunk
    settles and no request is made. Without options [maxRetries] is 3. *)
Theorem retry_policy (schedule : list (list (nat * response))) (total : nat) :
  let p := pool_loop cfg schedule total 0 (idle idx) in
  (forall c,
      List.map a_retryCount (attempts_of c (attempts p))
      = seq 0 (length (attempts_of c (attempts p))) /\
      (length (attempts_of c (attempts p)) <= 1 + maxRetries cfg)%nat) /\
  (n = 1%nat -> forall a, a ∈ attempts p -> a_retryCount a = 0%nat) /\
  (forall j a, attempts p !! j = Some a ->
               apiKeys cfg !! ((idx + j) mod n)%nat = Some (a_key a)) /\
  currentKeyIndex p = ((idx + length (attempts p)) mod n)%nat /\
  (forall (k : nat) (r : response) (a : attempt),
      inFlight p !! k = Some a ->
      let p' := settle cfg (k, r) p in
      match _transcribeChunk r with
      | Some t =>
          attempts p' = attempts p /\
          promises p' = promises p ++ [(a_chunk a, inr t)] /\
          currentKeyIndex p' = currentKeyIndex p
      | None =>
          if (a_retryCount a <? maxRetries cfg)%nat && (1 <? n)%nat then
            exists key,
              apiKeys cfg !! currentKeyIndex p = Some key /\
              attempts p'
              = attempts p ++ [ {| a_chunk := a_chunk a;
                                   a_retryCount := S (a_retryCount a);
                                   a_key := key |} ] /\
              promises p' = promises p /\
              currentKeyIndex p' = ((currentKeyIndex p + 1) mod n)%nat
          else
            attempts p' = attempts p /\
            promises p' = promises p ++ [(a_chunk a, inl RequestFailed)] /\
            currentKeyIndex p' = currentKeyIndex p
      end) /\
  (forall r, _transcribeChunk r = None
             <-> forall result, r <> Status200 (Some result)) /\
  (forall o, o_maxRetries o = None ->
             maxRetries (fst (constructor o)) = 3%nat).
Proof.
  intros p.
  destruct (ok_pool_loop schedule total 0 0 (idle idx) ok_idle (le_n 0))
    as (b & Hok).
  fold p in Hok. pose proof Hok as (H1 & H2 & H3 & H4 & H5 & H6).
  split_and!.
  - intros c. split; [apply H3|].
    apply numbered_bounded; [apply H3|].
    apply attempts_of_Forall.
    eapply Forall_impl; [exact H4|]. cbn. by intros a (? & _).
  - intros Hone a Ha. rewrite Forall_forall in H4.
    destruct (H4 a Ha) as (_ & _ & Hzero). apply Hzero. lia.
  - exact H2.
  - exact H1.
  - intros k r a Ha p'. unfold p', settle. cbn [fst snd]. rewrite Ha.
    unfold _transcribeWithRetry, promise_settled, request_made.
    cbn [currentKeyIndex inFlight attempts promises a_chunk a_retryCount].
    destruct (_transcribeChunk r) as [t|]; [done|].
    destruct ((a_retryCount a <? maxRetries cfg)%nat && (1 <? n)%nat);
      [|done].
    assert (currentKeyIndex p < n)%nat as Hlt.
    { rewrite H1. apply Nat.mod_upper_bound. lia. }
    destruct (getNextApiKey_some cfg _ Hlt) as (key & Hkey & ->).
    by exists key.
  - apply _transcribeChunk_rejects.
  - intros o Ho. cbn. by rewrite Ho.
Qed.

End Pool.

Lemma retry_policy_witness :
  let p := pool_loop Scenario.two_keys [[(0%nat, Status429)]] 2 0 (idle 0) in
  (length (attempts_of 0 (attempts p)) <= 1 + 3)%nat /\
  currentKeyIndex p = ((0 + length (attempts p)) mod 2)%nat /\
  List.map (fun a => (a_chunk a, a_retryCount a, a_key a)) (attempts p)
  = [ (0%nat, 0%nat, "key-a"); (1%nat, 0%nat, "key-b");
      (0%nat, 1%nat, "key-a") ].
Proof.
  assert (0 < length (apiKeys Scenario.two_keys))%nat as Hidx
      by (vm_compute; lia).
  destruct (retry_policy Scenario.two_keys 0 Hidx [[(0%nat, Status429)]] 2)
    as (Hper & _ & _ & Hcur & _).
  split; [apply Hper|]. split; [exact Hcur|]. reflexivity.
Defined.

End GroqProofs.

(* ===================================================================== *)
(** * Properties of the recording session *)
(* ===================================================================== *)

Module RecordingProofs.
Import RecordingManager.

Section Session.
Variable concat_list_path : string -> string.
Variable segment_path : string -> nat -> string.

Lemma close_last_gap_snoc (resumeTime pauseDuration : Z)
      (gaps : list gap) (g : gap) :
  close_last_gap resumeTime pauseDuration (gaps ++ [g])
  = gaps ++ [ {| g_start := g_start g; g_end := Some resumeTime;
                 g_duration := Some pauseDuration |} ].
Proof.
  unfold close_last_gap.
  replace (length (gaps ++ [g]) - 1)%nat with (length gaps + 0)%nat
    by (rewrite length_app; simpl; lia).
  by rewrite alter_app_r.
Qed.

(** One pause and resume on a session that is recording. *)
Lemma pause_resume_recording (st : state) (rec : recording)
      (ok : bool) (c : cycle) :
  currentRecording st = Some rec ->
  isPaused st = false ->
  exists rec',
    pause_resume segment_path (st, ok) c
    = ({| currentRecording := Some rec'; isPaused := false;
          pauseStartTime := None |}, ok) /\
    r_startTime rec' = r_startTime rec /\
    r_outputPath rec' = r_outputPath rec /\
    r_gaps rec' = r_gaps rec ++ [closed_gap c] /\
    r_segments rec' =
      r_segments rec ++
      [ {| s_path := segment_path (r_outputPath rec)
                       (length (r_segments rec) + 1);
           s_startTime := c_resume2 c |} ].
Proof.
  intros Hrec Hrun. unfold pause_resume, pauseRecording.
  rewrite Hrec, Hrun. unfold resumeRecording. simpl.
  eexists. split; [by rewrite andb_true_r|]. simpl.
  split; [done|]. split; [done|]. split; [|done].
  by rewrite close_last_gap_snoc.
Qed.

Lemma pause_resume_all_recording (cycles : list cycle) :
  forall (st : state) (rec : recording),
    currentRecording st = Some rec ->
    isPaused st = false ->
    exists st' rec',
      pause_resume_all segment_path st cycles = (st', true) /\
      currentRecording st' = Some rec' /\
      isPaused st' = false /\
      r_startTime rec' = r_startTime rec /\
      r_outputPath rec' = r_outputPath rec /\
      r_gaps rec' = r_gaps rec ++ List.map closed_gap cycles /\
      r_segments rec' =
        r_segments rec ++
        imap (fun i c =>
                {| s_path := segment_path (r_outputPath rec)
                               (length (r_segments rec) + i + 1);
                   s_startTime := c_resume2 c |})
             cycles.
Proof.
  induction cycles as [|c cycles IH] using rev_ind; intros st rec Hrec Hrun.
  - exists st, rec. simpl. by rewrite !app_nil_r.
  - destruct (IH st rec Hrec Hrun)
      as (st1 & rec1 & Hall & Hrec1 & Hrun1 & Hst & Hout & Hgaps & Hsegs).
    unfold pause_resume_all in *. rewrite fold_left_app, Hall.
    cbn [fold_left].
    destruct (pause_resume_recording st1 rec1 true c Hrec1 Hrun1)
      as (rec2 & -> & Hst2 & Hout2 & Hgaps2 & Hsegs2).
    eexists _, rec2. split; [done|]. simpl.
    split; [done|]. split; [done|].
    split; [congruence|]. split; [congruence|].
    split.
    + by rewrite Hgaps2, Hgaps, map_app, app_assoc.
    + rewrite Hsegs2, Hsegs, Hout, imap_app, <- app_assoc. simpl.
      rewrite length_app, length_imap.
      repeat f_equal. lia.
Qed.

(** C4: a session that was started and then paused and resumed N
    times, the recorder doing each time what it was asked, holds N+1
    segments and N gaps; the gap of each pause starts at the time of
    the pause, ends at the time of the resume that closed it, and its
    duration is the time of the resume less the time of the pause. The
    segments are the first one and, for each resume, one with the next
    sequence number. *)
Theorem pause_resume_segments_and_gaps
        (o : options) (now1 now2 : Z) (st : state) (cycles : list cycle) :
  startRecording constructor o now1 now2 None = (st, inr tt) ->
  exists st' rec,
    pause_resume_all segment_path st cycles = (st', true) /\
    currentRecording st' = Some rec /\
    isPaused st' = false /\
    length (r_segments rec) = S (length cycles) /\
    length (r_gaps rec) = length cycles /\
    r_gaps rec = List.map closed_gap cycles /\
    r_segments rec =
      {| s_path := r_outputPath rec; s_startTime := now2 |}
      :: imap (resumed_segment segment_path (r_outputPath rec)) cycles.
Proof.
  intros Hstart.
  assert (exists rec, currentRecording st = Some rec /\
                      isPaused st = false /\ r_gaps rec = [] /\
                      r_segments rec
                      = [ {| s_path := r_outputPath rec;
                             s_startTime := now2 |} ])
    as (rec & Hrec & Hrun & Hgaps & Hsegs).
  { unfold startRecording in Hstart. simpl in Hstart.
    destruct (o_outputPath o) as [out|]; [|by inversion Hstart].
    repeat match type of Hstart with
           | (if ?b then _ else _) = _ =>
               destruct b; [by inversion Hstart|]
           end.
    inversion Hstart; subst. eexists. split; [done|]. by simpl. }
  destruct (pause_resume_all_recording cycles st rec Hrec Hrun)
    as (st' & rec' & Hall & Hrec' & Hrun' & _ & Hout & Hgaps' & Hsegs').
  exists st', rec'. split; [done|]. split; [done|]. split; [done|].
  rewrite Hgaps in Hgaps'. rewrite Hsegs in Hsegs'. simpl in *.
  rewrite Hgaps', Hsegs', Hout. simpl.
  rewrite length_imap, length_map.
  split; [done|]. split; [done|]. split; [done|].
  f_equal. apply imap_ext. intros i c _. unfold resumed_segment.
  f_equal. f_equal. lia.
Qed.
End Session.

Lemma pause_resume_segments_and_gaps_witness :
  exists st' rec,
    pause_resume_all Scenario.segment_file Scenario.started
                     [Scenario.pause_10_resume_15] = (st', true) /\
    currentRecording st' = Some rec /\
    length (r_segments rec) = 2%nat /\
    r_gaps rec = [ {| g_start := 10; g_end := Some 15;
                      g_duration := Some 5 |} ].
Proof.
  destruct (pause_resume_segments_and_gaps Scenario.segment_file
              Scenario.start_options 0 0 Scenario.started
              [Scenario.pause_10_resume_15] eq_refl)
    as (st' & rec & Hall & Hrec & _ & Hsegs & _ & Hgaps & _).
  exists st', rec. repeat split; assumption.
Defined.


(** ** Stopping *)

(** C5, as stated, does not hold: the session has two segments, the
    recorder stops well and the concatenation exits with code 1; the
    result of the stop carries duration, gaps, segments and the merge
    error, and its [success] is false. *)
Lemma stop_reports_failure_when_concat_fails :
  exists info,
    snd Scenario.stop_concat_exits_1 = Stopped info /\
    mergeError info = Some "Failed to merge segments: Invalid data found" /\
    duration info = 20 /\
    length (segments info) = 2%nat /\
    success info = false.
Proof.
  unfold Scenario.stop_concat_exits_1, stopRecording. simpl.
  eexists. split; [reflexivity|]. simpl. repeat split; reflexivity.
Qed.

Section Stop.
Variable concat_list_path : string -> string.

(** C5, amended: when a session with more than one segment is
    stopped, the recorder stops well and the concatenation fails, the
    stop resolves with a result that carries the output path, the
    duration, the gap list, the segment list and, as the merge error,
    the message of the failure; the session is closed; the [success]
    flag of the result is false, unless the message is empty. *)
Theorem stop_with_failed_concatenation
        (st : state) (rec : recording) (w : concat_world)
        (unlink_ok : string -> bool) (now : Z) (files : gset string) :
  currentRecording st = Some rec ->
  (1 < length (r_segments rec))%nat ->
  concat_fails w ->
  exists files' info message,
    stopRecording concat_list_path st (StopResolves true) w unlink_ok
                  now files
    = (cleared, files', Stopped info) /\
    outputPath info = r_outputPath rec /\
    duration info = now - r_startTime rec /\
    gaps info = r_gaps rec /\
    segments info = r_segments rec /\
    mergeError info = Some message /\
    success info = negb (JS.truthy message) /\
    (w <> WriteListFails "" -> success info = false).
Proof.
  intros Hrec Hmany Hfail. unfold stopRecording. rewrite Hrec.
  apply Nat.ltb_lt in Hmany. rewrite Hmany.
  destruct w as [message|message|code stderr]; simpl in *.
  - eexists _, _, message. split; [reflexivity|]. simpl.
    repeat (split; [reflexivity|]).
    intros Hne. destruct message; [congruence | reflexivity].
  - eexists _, _, _. split; [reflexivity|]. simpl.
    repeat (split; [reflexivity|]). done.
  - rewrite bool_decide_eq_false_2 by done.
    eexists _, _, _. split; [reflexivity|]. simpl.
    repeat (split; [reflexivity|]). done.
Qed.

(** ** Concatenation *)

(** When the concatenation exits with code 0 and every unlink works,
    no file of a segment after the first is left. *)
Lemma merge_success_deletes_later_segments
      (segments : list rec_segment) (outputPath stderr : string)
      (files : gset string) :
  let '(files', r) :=
    _mergeSegments concat_list_path segments outputPath (Exits 0 stderr)
                   (fun _ => true) files in
  r = None /\
  forall seg, seg ∈ drop 1 segments -> s_path seg ∉ files'.
Proof.
  unfold _mergeSegments. rewrite bool_decide_eq_true_2 by done.
  split; [done|].
  generalize (unlink (fun _ => true) (concat_list_path outputPath)
                (files ∪ {[concat_list_path outputPath]} ∪ {[outputPath]})).
  induction (drop 1 segments) as [|s l IH]; intros fs seg Hin; simpl.
  - by apply elem_of_nil in Hin.
  - assert (forall (l : list rec_segment) (fs : gset string) (p : string),
              p ∉ fs ->
              p ∉ fold_left (fun fs seg => unlink (fun _ => true)
                                             (s_path seg) fs) l fs)
      as Hkeep.
    { clear. induction l as [|s l IH]; intros fs p Hp; simpl; [done|].
      apply IH. unfold unlink. by intros [Hin _]%elem_of_difference. }
    apply elem_of_cons in Hin as [-> | Hin].
    + apply Hkeep. unfold unlink. intros [_ Hne]%elem_of_difference.
      apply Hne. by apply elem_of_singleton.
    + by apply IH.
Qed.

(** When the list file cannot be written or the process cannot be
    spawned, no file is deleted. *)
Lemma merge_not_started_keeps_files
      (segments : list rec_segment) (outputPath message : string)
      (unlink_ok : string -> bool) (files : gset string) (w : concat_world) :
  w = WriteListFails message \/ w = SpawnFails message ->
  files ⊆ fst (_mergeSegments concat_list_path segments outputPath w
                              unlink_ok files).
Proof.
  intros [-> | ->]; simpl; [done|]. apply union_subseteq_l.
Qed.
End Stop.

Lemma stop_with_failed_concatenation_witness :
  exists files' info message,
    Scenario.stop_concat_exits_1 = (cleared, files', Stopped info) /\
    mergeError info = Some message /\
    success info = false.
Proof.
  destruct (stop_with_failed_concatenation Scenario.list_path
              Scenario.resumed _
              (Exits 1 "Invalid data found")
              Scenario.every_unlink_works 20 Scenario.recorded
              eq_refl)
    as (files' & info & message & Hstop & _ & _ & _ & _ & Hmsg & _ & Hsucc).
  { vm_compute. lia. }
  { simpl. discriminate. }
  exists files', info, message.
  split; [exact Hstop|]. split; [exact Hmsg|].
  apply Hsucc. discriminate.
Defined.

(** C6 at an input where the code differs from it: the concatenation
    of two segment files exits with code 1; the failure is reported, and
    the file of the second segment is deleted all the same, as it is
    when the concatenation exits with code 0. The files of the segments
    are unlinked before the exit code is looked at. *)
Theorem failed_merge_deletes_segments :
  (snd Scenario.concat_exits_1
   = Some "Failed to merge segments: Invalid data found") /\
  ("rec_segment2.wav" ∈ Scenario.recorded) /\
  ("rec_segment2.wav" ∉ fst Scenario.concat_exits_1) /\
  ("rec.wav" ∈ fst Scenario.concat_exits_1) /\
  (snd Scenario.concat_exits_0 = None) /\
  ("rec_segment2.wav" ∉ fst Scenario.concat_exits_0).
Proof. repeat split; compute_done. Qed.

End RecordingProofs.

(* ===================================================================== *)
(** * Further properties of the merger *)
(* ===================================================================== *)

Module MergerMore.
Import TranscriptMerger Props MergerProps TranscriptOutput.

(** ** Normalized segments *)

Lemma n_segments_normalize (t : transcript_input) (off : Z) :
  n_segments (_normalizeTranscript t off)
  = imap (adjust_segment off) (segments_of t off).
Proof. by destruct t. Qed.

Lemma all_segments_Forall (P : segment -> Prop)
      (ts : list transcript_input) (D : Z) :
  (forall i t, ts !! i = Some t ->
               Forall P (n_segments (_normalizeTranscript t (Z.of_nat i * D)))) ->
  Forall P (all_segments (normalize_all ts D)).
Proof.
  intros H. unfold all_segments, normalize_all.
  apply Forall_concat, List.Forall_map, Forall_lookup.
  intros i n Hn. rewrite list_lookup_imap in Hn.
  destruct (ts !! i) as [t|] eqn:Ht; simpl in Hn; [|done].
  injection Hn as <-. by apply (H i t).
Qed.

Lemma normalized_starts_nonneg (t : transcript_input) (off : Z) :
  Forall (fun s => 0 <= seg_start s) (n_segments (_normalizeTranscript t off)).
Proof.
  rewrite n_segments_normalize. apply Forall_lookup. intros i s Hs.
  rewrite list_lookup_imap in Hs.
  destruct (segments_of t off !! i) as [r|]; simpl in Hs; [|done].
  injection Hs as <-. simpl. lia.
Qed.

Lemma normalized_well_timed (t : transcript_input) (off : Z) :
  0 <= off -> starts_nonneg t ->
  Forall well_timed (n_segments (_normalizeTranscript t off)).
Proof.
  intros Hoff Ht. rewrite n_segments_normalize. apply Forall_lookup.
  intros i s Hs. rewrite list_lookup_imap in Hs.
  destruct (segments_of t off !! i) as [r|] eqn:Hr; simpl in Hs; [|done].
  injection Hs as <-. apply MergerProofs.adjust_segment_well_timed.
  destruct (rs_start r) as [s|] eqn:Hstart; [|lia].
  destruct t as [txt|segs|o|]; simpl in *.
  - destruct i; simpl in Hr; [|done]. injection Hr as <-.
    simpl in Hstart. injection Hstart as <-. lia.
  - rewrite Forall_lookup in Ht. specialize (Ht i r Hr s Hstart). lia.
  - rewrite Forall_lookup in Ht. specialize (Ht i r Hr s Hstart). lia.
  - done.
Qed.

(** ** What the pass keeps *)

Lemma dedup_from_starts (P : Z -> Prop) (previous : segment)
      (rest : list segment) :
  Forall (fun s => P (seg_start s)) (previous :: rest) ->
  Forall (fun s => P (seg_start s)) (dedup_from previous rest).
Proof.
  revert previous.
  induction rest as [|current rest IH]; intros previous Hall; simpl; [done|].
  apply Forall_cons in Hall as [Hp Hall].
  apply Forall_cons in Hall as [Hc Hall].
  repeat case_bool_decide.
  - apply IH. by constructor.
  - apply IH. by constructor.
  - constructor; [done|]. apply IH. by constructor.
Qed.

Lemma dedup_from_head_end (previous : segment) (rest : list segment) :
  exists h t, dedup_from previous rest = h :: t
              /\ seg_start h = seg_start previous
              /\ seg_end previous <= seg_end h.
Proof.
  revert previous.
  induction rest as [|current rest IH]; intros previous; simpl.
  - exists previous, []. repeat split; lia.
  - repeat case_bool_decide.
    + destruct (IH (extend previous current)) as (h & t & -> & Hs & He).
      exists h, t. simpl in *. repeat split; [done | lia].
    + apply IH.
    + eexists _, _. repeat split; lia.
Qed.

Lemma dedup_from_covers (previous : segment) (rest : list segment) :
  StronglySorted by_start (previous :: rest) ->
  Forall (fun s => Exists (fun m => covers m s) (dedup_from previous rest))
         (previous :: rest).
Proof.
  revert previous.
  induction rest as [|current rest IH]; intros previous Hs; simpl.
  - repeat constructor; lia.
  - apply StronglySorted_inv in Hs as [Hrest Hprev].
    apply StronglySorted_inv in Hrest as Hrest'.
    destruct Hrest' as [Hrest' Hcur].
    apply Forall_cons in Hprev as [Hpc Hprev].
    unfold by_start in Hpc.
    repeat case_bool_decide.
    + assert (StronglySorted by_start (extend previous current :: rest))
        as Hs' by (by constructor).
      apply IH in Hs'. apply Forall_cons in Hs' as [Hext Hs'].
      assert (Exists (fun m => covers m previous)
                     (dedup_from (extend previous current) rest)) as Hp.
      { eapply Exists_impl; [exact Hext|].
        intros m [H1 H2]. simpl in *. split; lia. }
      assert (Exists (fun m => covers m current)
                     (dedup_from (extend previous current) rest)) as Hc.
      { eapply Exists_impl; [exact Hext|].
        intros m [H1 H2]. simpl in *. split; lia. }
      by repeat constructor.
    + assert (StronglySorted by_start (previous :: rest))
        as Hs' by (by constructor).
      apply IH in Hs'. apply Forall_cons in Hs' as [Hp Hs'].
      constructor; [done|]. constructor; [|done].
      eapply Exists_impl; [exact Hp|].
      intros m [H1 H2]. split; lia.
    + apply IH in Hrest. constructor.
      * apply Exists_cons_hd. split; lia.
      * eapply Forall_impl; [exact Hrest|].
        intros s Hex. by apply Exists_cons_tl.
Qed.

Lemma dedup_from_length (previous : segment) (rest : list segment) :
  (1 <= length (dedup_from previous rest) <= S (length rest))%nat.
Proof.
  revert previous.
  induction rest as [|current rest IH]; intros previous; simpl; [lia|].
  repeat case_bool_decide; simpl.
  - specialize (IH (extend previous current)). lia.
  - specialize (IH previous). lia.
  - specialize (IH current). lia.
Qed.

Lemma dedup_from_ends_before (previous : segment) (rest : list segment) :
  Sorted ends_before (dedup_from previous rest).
Proof.
  revert previous.
  induction rest as [|current rest IH]; intros previous; simpl.
  - repeat constructor.
  - repeat case_bool_decide; try apply IH.
    constructor; [apply IH|].
    destruct (MergerProofs.dedup_from_head current rest) as (h & t & -> & Hh).
    constructor. unfold ends_before. lia.
Qed.

Lemma dedup_from_fixed (previous : segment) (rest : list segment) :
  Sorted ends_before (previous :: rest) ->
  dedup_from previous rest = previous :: rest.
Proof.
  revert previous.
  induction rest as [|current rest IH]; intros previous Hs; simpl; [done|].
  apply Sorted_inv in Hs as [Hrest Hhd].
  apply HdRel_inv in Hhd. unfold ends_before in Hhd.
  rewrite bool_decide_eq_false_2 by lia.
  f_equal. by apply IH.
Qed.

(** ** The merged transcript *)

Lemma sorted_all_segments (ts : list transcript_input) (D : Z) :
  exists sorted,
    sorted = sort_by_start (all_segments (normalize_all ts D)) /\
    sorted ≡ₚ all_segments (normalize_all ts D) /\
    StronglySorted by_start sorted /\
    m_segments (merge ts D) = _deduplicateSegments sorted.
Proof.
  eexists. split; [reflexivity|].
  split; [apply MergerProofs.sort_by_start_perm|].
  split; [apply MergerProofs.sort_by_start_sorted|].
  apply MergerProofs.merge_segments.
Qed.

Lemma sorted_dedup_starts_nonneg (ts : list transcript_input) (D : Z)
      (sorted : list segment) :
  sorted ≡ₚ all_segments (normalize_all ts D) ->
  Forall (fun s => 0 <= seg_start s) (_deduplicateSegments sorted).
Proof.
  intros Hperm.
  assert (Forall (fun s => 0 <= seg_start s) sorted) as Hall.
  { rewrite Hperm. apply all_segments_Forall.
    intros i t _. apply normalized_starts_nonneg. }
  destruct sorted as [|first rest]; [constructor|].
  rewrite MergerProofs._deduplicateSegments_cons.
  by apply (dedup_from_starts (fun z => 0 <= z)).
Qed.

(** For every input, no merged segment starts before 0. *)
Theorem merged_starts_nonneg (ts : list transcript_input) (D : Z) :
  Forall (fun s => 0 <= seg_start s) (m_segments (merge ts D)).
Proof.
  destruct (sorted_all_segments ts D) as (sorted & _ & Hperm & _ & ->).
  by apply (sorted_dedup_starts_nonneg ts D).
Qed.

Lemma normalized_all_well_timed (ts : list transcript_input) (D : Z) :
  0 <= D ->
  Forall starts_nonneg ts ->
  Forall well_timed (all_segments (normalize_all ts D)).
Proof.
  intros HD Hts. apply all_segments_Forall. intros i t Ht.
  apply normalized_well_timed; [lia|].
  rewrite Forall_lookup in Hts. by apply (Hts i).
Qed.

Lemma sorted_dedup_covers (sorted : list segment) :
  StronglySorted by_start sorted ->
  Forall (fun s => Exists (fun m => covers m s) (_deduplicateSegments sorted))
         sorted.
Proof.
  intros Hsorted. destruct sorted as [|first rest]; [constructor|].
  rewrite MergerProofs._deduplicateSegments_cons.
  by apply dedup_from_covers.
Qed.

(** When the chunk duration is not negative and no input segment starts
    before 0, every merged segment ends no earlier than it starts. *)
Theorem merged_well_timed_inputs (ts : list transcript_input) (D : Z) :
  0 <= D ->
  Forall starts_nonneg ts ->
  Forall well_timed (m_segments (merge ts D)).
Proof.
  intros HD Hts. apply MergerProofs.merged_well_timed.
  by apply normalized_all_well_timed.
Qed.

Lemma merged_well_timed_inputs_witness :
  Forall well_timed
         (m_segments (merge [ TString "hello";
                              TArray [ Scenario.raw 3 1 "a";
                                       Scenario.raw 0 4 "b" ] ] 60)).
Proof.
  apply merged_well_timed_inputs; [lia|].
  repeat constructor; simpl; intros s Hs; injection Hs as <-; lia.
Defined.

(** For every input, the time range of every normalized segment lies
    within the time range of one merged segment: the pass drops no
    stretch of time. *)
Theorem merged_covers_inputs (ts : list transcript_input) (D : Z) :
  Forall (fun s => Exists (fun m => covers m s) (m_segments (merge ts D)))
         (all_segments (normalize_all ts D)).
Proof.
  destruct (sorted_all_segments ts D) as (sorted & _ & Hperm & Hsorted & ->).
  rewrite <- Hperm. by apply sorted_dedup_covers.
Qed.

Lemma merge_duration (ts : list transcript_input) (D : Z) :
  m_duration (merge ts D)
  = match last (m_segments (merge ts D)) with
    | Some s => seg_end s
    | None => 0
    end.
Proof. by destruct ts. Qed.

Lemma follows_last_latest (l : list segment) :
  Sorted follows l -> Forall well_timed l ->
  Forall (fun m => exists z, last l = Some z /\ seg_end m <= seg_end z) l.
Proof.
  induction 1 as [|a l Hl IH Ha]; intros Hw; [constructor|].
  apply Forall_cons in Hw as [Hwa Hw]. specialize (IH Hw).
  destruct l as [|b l].
  - constructor; [|constructor]. exists a. split; [done|lia].
  - rewrite last_cons_cons. constructor.
    + apply Forall_cons in IH as [(z & Hz & Hbz) _].
      apply HdRel_inv in Ha as [_ Hab].
      apply Forall_cons in Hw as [Hwb _]. unfold well_timed in Hwb.
      exists z. split; [done|lia].
    + exact IH.
Qed.

Lemma dedup_from_ends (P : Z -> Prop) (previous : segment)
      (rest : list segment) :
  P (seg_end previous) -> Forall (fun s => P (seg_end s)) rest ->
  Forall (fun s => P (seg_end s)) (dedup_from previous rest).
Proof.
  revert previous.
  induction rest as [|current rest IH]; intros previous Hp Hrest; simpl.
  - by repeat constructor.
  - apply Forall_cons in Hrest as [Hc Hrest].
    repeat case_bool_decide.
    + by apply IH.
    + by apply IH.
    + constructor; [done|]. by apply IH.
Qed.

(** When the chunk duration is not negative and no input segment starts
    before 0, the duration of the merged transcript is the latest end:
    no normalized segment ends after it, and it is the end of one of
    them, or 0 when there is none. *)
Theorem merged_duration_latest_end (ts : list transcript_input) (D : Z) :
  0 <= D ->
  Forall starts_nonneg ts ->
  Forall (fun s => seg_end s <= m_duration (merge ts D))
         (all_segments (normalize_all ts D)) /\
  ((exists s, s ∈ all_segments (normalize_all ts D) /\
              m_duration (merge ts D) = seg_end s)
   \/ (all_segments (normalize_all ts D) = [] /\ m_duration (merge ts D) = 0)).
Proof.
  intros HD Hts. split.
  - pose proof (MergerProofs.merged_well_timed ts D
                  (normalized_all_well_timed ts D HD Hts)) as Hw.
    pose proof (MergerProofs.merged_segments_follow ts D) as Hf.
    pose proof (follows_last_latest _ Hf Hw) as Hlast.
    assert (Forall (fun s => Exists (fun m => covers m s)
                                    (m_segments (merge ts D)))
                   (all_segments (normalize_all ts D))) as Hcov.
    { destruct (sorted_all_segments ts D)
        as (sorted & _ & Hperm & Hsorted & ->).
      rewrite <- Hperm. by apply sorted_dedup_covers. }
    eapply Forall_impl; [exact Hcov|].
    intros s Hex. apply Exists_exists in Hex as (m & Hm & _ & Hend).
    rewrite Forall_forall in Hlast.
    destruct (Hlast m Hm) as (z & Hz & Hmz).
    rewrite merge_duration, Hz. lia.
  - rewrite merge_duration.
    destruct (sorted_all_segments ts D) as (sorted & _ & Hperm & _ & ->).
    destruct sorted as [|first rest].
    + right. split; [|done]. symmetry in Hperm.
      by apply Permutation_nil_r in Hperm.
    + left. rewrite MergerProofs._deduplicateSegments_cons.
      assert (Forall (fun s => exists s', s' ∈ first :: rest
                                          /\ seg_end s' = seg_end s)
                     (dedup_from first rest)) as Hends.
      { apply (dedup_from_ends
                 (fun z => exists s', s' ∈ first :: rest /\ seg_end s' = z)).
        - exists first. split; [apply elem_of_cons; by left|done].
        - apply Forall_forall. intros s Hs. exists s.
          split; [apply elem_of_cons; by right|done]. }
      destruct (last (dedup_from first rest)) as [z|] eqn:Hz.
      * apply last_Some_elem_of in Hz. rewrite Forall_forall in Hends.
        destruct (Hends z Hz) as (s' & Hs' & Hend).
        exists s'. split; [by rewrite <- Hperm|done].
      * apply last_None in Hz.
        pose proof (dedup_from_length first rest) as Hlen.
        rewrite Hz in Hlen. simpl in Hlen. lia.
Qed.

Lemma merged_duration_latest_end_witness :
  Forall (fun s => seg_end s <= m_duration (merge [ TString "hello";
                                                      TString "world" ] 60))
         (all_segments (normalize_all [ TString "hello";
                                        TString "world" ] 60)) /\
  ((exists s, s ∈ all_segments (normalize_all [ TString "hello";
                                                TString "world" ] 60) /\
              m_duration (merge [ TString "hello"; TString "world" ] 60)
              = seg_end s)
   \/ (all_segments (normalize_all [ TString "hello"; TString "world" ] 60)
       = [] /\
       m_duration (merge [ TString "hello"; TString "world" ] 60) = 0)).
Proof.
  apply merged_duration_latest_end; [lia|]. by repeat constructor.
Defined.

(** A second pass of [_deduplicateSegments] changes nothing, whatever
    the order of the segments given to the first. *)
Theorem _deduplicateSegments_idempotent (segments : list segment) :
  _deduplicateSegments (_deduplicateSegments segments)
  = _deduplicateSegments segments.
Proof.
  destruct segments as [|first rest]; [reflexivity|].
  rewrite MergerProofs._deduplicateSegments_cons.
  pose proof (dedup_from_ends_before first rest) as Hs.
  destruct (dedup_from first rest) as [|h t] eqn:Hd; [reflexivity|].
  rewrite MergerProofs._deduplicateSegments_cons. by apply dedup_from_fixed.
Qed.

(** The chunk count of a merged transcript is the number of transcripts
    given to [merge]; its segment count is the number of its segments,
    which is at most the number of normalized segments and is 0 only when
    there is none. *)
Theorem merged_counts (ts : list transcript_input) (D : Z) :
  m_chunkCount (merge ts D) = length ts /\
  m_segmentCount (merge ts D) = length (m_segments (merge ts D)) /\
  (length (m_segments (merge ts D))
   <= length (all_segments (normalize_all ts D)))%nat /\
  (m_segmentCount (merge ts D) = 0%nat
   <-> all_segments (normalize_all ts D) = []).
Proof.
  split; [by destruct ts|]. split; [by destruct ts|].
  assert (m_segmentCount (merge ts D) = length (m_segments (merge ts D)))
    as -> by (by destruct ts).
  destruct (sorted_all_segments ts D) as (sorted & _ & Hperm & _ & ->).
  apply Permutation_length in Hperm.
  destruct (all_segments (normalize_all ts D)) as [|s all];
    destruct sorted as [|first rest]; try done.
  rewrite MergerProofs._deduplicateSegments_cons.
  pose proof (dedup_from_length first rest) as Hlen. simpl in *.
  split; [lia|]. split; [lia|done].
Qed.

Lemma sorted_follows_adjacent (l : list segment) :
  Sorted follows l ->
  forall i a b, l !! i = Some a -> l !! S i = Some b -> follows a b.
Proof.
  induction 1 as [|x l Hl IH Hx]; intros i a b Ha Hb; [done|].
  destruct i as [|i]; simpl in Ha, Hb.
  - injection Ha as <-. destruct l as [|y l]; [done|].
    simpl in Hb. injection Hb as <-. by apply HdRel_inv in Hx.
  - by apply (IH i).
Qed.

(** For every input, of two merged segments next to each other the
    second starts no earlier than the first starts and no earlier than
    the first ends: the merged segments are in the order of time and do
    not overlap. *)
Theorem merged_segments_in_order
        (ts : list transcript_input) (D : Z) (i : nat) (a b : segment) :
  m_segments (merge ts D) !! i = Some a ->
  m_segments (merge ts D) !! S i = Some b ->
  seg_start a <= seg_start b /\ seg_end a <= seg_start b.
Proof.
  intros Ha Hb.
  exact (sorted_follows_adjacent _ (MergerProofs.merged_segments_follow ts D)
           i a b Ha Hb).
Qed.

Lemma merged_segments_in_order_witness :
  exists a b,
    m_segments (merge [ TArray [ Scenario.raw 5 7 "b";
                                 Scenario.raw 0 2 "a" ] ] 60) !! 0%nat
    = Some a
    /\ m_segments (merge [ TArray [ Scenario.raw 5 7 "b";
                                    Scenario.raw 0 2 "a" ] ] 60) !! 1%nat
       = Some b
    /\ seg_start a <= seg_start b /\ seg_end a <= seg_start b.
Proof.
  eexists _, _. split; [reflexivity|]. split; [reflexivity|].
  apply (merged_segments_in_order
           [ TArray [ Scenario.raw 5 7 "b"; Scenario.raw 0 2 "a" ] ] 60 0);
    reflexivity.
Defined.

End MergerMore.

(* ===================================================================== *)
(** * Properties of checking and printing a transcript *)
(* ===================================================================== *)

Module OutputProofs.
Import TranscriptMerger Props MergerProps TranscriptOutput.

(** ** [validate] *)

Lemma validate_from_produced (i : nat) (l : list segment) :
  validate_from i (List.map as_raw l) = Valid
  <-> Forall (fun s => 0 <= seg_start s /\ seg_start s <= seg_end s) l.
Proof.
  revert i. induction l as [|s l IH]; intros i; simpl.
  - split; [constructor | done].
  - rewrite Forall_cons, <- (IH (S i)).
    destruct (bool_decide (seg_start s < 0)) eqn:H1;
      destruct (bool_decide (seg_end s < seg_start s)) eqn:H2; simpl;
      try apply bool_decide_eq_true in H1;
      try apply bool_decide_eq_true in H2;
      try apply bool_decide_eq_false in H1;
      try apply bool_decide_eq_false in H2;
      (split; [try done | try (intros [Hs _]; lia)]).
    + intros Hv. split; [lia | done].
    + by intros [_ Hv].
Qed.

Lemma validate_from_starts (i : nat) (segs : list raw_segment) :
  validate_from i segs = Valid ->
  Forall (fun r => forall s, rs_start r = Some s -> 0 <= s) segs.
Proof.
  revert i. induction segs as [|r segs IH]; intros i Hv; simpl in *;
    [constructor|].
  destruct (rs_start r) as [s|] eqn:Hs; [|done].
  destruct (rs_end r) as [e|]; [|done].
  case_bool_decide; simpl in Hv; [done|].
  case_bool_decide; simpl in Hv; [done|].
  constructor; [|by apply (IH (S i))].
  intros s' Hs'. assert (s' = s) as -> by congruence. lia.
Qed.

Lemma validate_produced (m : merged) :
  validate (as_transcript m) = Valid
  <-> Forall (fun s => 0 <= seg_start s /\ seg_start s <= seg_end s)
             (m_segments m).
Proof.
  unfold validate, as_transcript; simpl. apply validate_from_produced.
Qed.

Lemma merge_starts (ts : list transcript_input) (D : Z) :
  Forall (fun s => 0 <= seg_start s) (m_segments (merge ts D)).
Proof.
  destruct (MergerMore.sorted_all_segments ts D)
    as (sorted & _ & Hperm & _ & ->).
  by apply (MergerMore.sorted_dedup_starts_nonneg ts D).
Qed.

(** A transcript that [merge] returned passes [validate] exactly when
    each of its segments ends no earlier than it starts. *)
Theorem validate_merged (ts : list transcript_input) (D : Z) :
  validate (as_transcript (merge ts D)) = Valid
  <-> Forall well_timed (m_segments (merge ts D)).
Proof.
  rewrite validate_produced.
  pose proof (merge_starts ts D) as Hnn.
  rewrite !Forall_forall in *. unfold well_timed.
  split; intros H s Hs; [by apply H | split; [by apply Hnn | by apply H]].
Qed.

(** When the chunk duration is not negative and every input transcript
    passes [validate], so does the merged transcript. *)
Theorem merge_preserves_validity (ts : list transcript_input) (D : Z) :
  0 <= D ->
  Forall (fun t => validate t = Valid) ts ->
  validate (as_transcript (merge ts D)) = Valid.
Proof.
  intros HD Hts. rewrite validate_produced.
  pose proof (merge_starts ts D) as Hnn.
  assert (Forall well_timed (m_segments (merge ts D))) as Hw;
    [|rewrite !Forall_forall in *; unfold well_timed in Hw;
      intros s Hs; split; [by apply Hnn | by apply Hw]].
  apply MergerProofs.merged_well_timed.
  apply MergerMore.normalized_all_well_timed; [done|].
  eapply Forall_impl; [exact Hts|].
  intros [s|segs|o|] Hv; simpl in *; try done.
  destruct (to_segments o) as [segs|]; [|done].
  by apply (validate_from_starts 0).
Qed.

Lemma merge_preserves_validity_witness :
  validate (as_transcript
              (merge [ TObject {| to_text := Some "a"; to_language := None;
                                  to_segments :=
                                    Some [ Scenario.raw 0 2 "a" ] |} ] 60))
  = Valid.
Proof.
  apply merge_preserves_validity; [lia|]. repeat constructor.
Defined.

Lemma validate_from_first_error (j i : nat) (segs : list raw_segment) :
  validate_from j segs = InvalidTimestamps i
  \/ validate_from j segs = MissingTimes i ->
  (j <= i)%nat /\
  validate_from j (take (i - j) segs) = Valid /\
  exists r, segs !! (i - j)%nat = Some r /\
    match rs_start r, rs_end r with
    | Some s, Some e =>
        validate_from j segs = InvalidTimestamps i /\ (s < 0 \/ e < s)
    | _, _ => validate_from j segs = MissingTimes i
    end.
Proof.
  revert j. induction segs as [|r segs IH]; intros j Hv; simpl in *.
  - by destruct Hv.
  - destruct (rs_start r) as [s|] eqn:Hs;
      [destruct (rs_end r) as [e|] eqn:He|].
    + destruct (bool_decide (s < 0) || bool_decide (e < s)) eqn:Hbad.
      * assert (i = j) as -> by (destruct Hv as [Hv|Hv]; congruence).
        rewrite Nat.sub_diag. simpl. split; [lia|]. split; [done|].
        exists r. split; [done|]. rewrite Hs, He. split; [done|].
        apply orb_true_iff in Hbad as [H|H]; apply bool_decide_eq_true in H;
          lia.
      * destruct (IH (S j) Hv) as (Hle & Hok & r' & Hr' & Hm).
        split; [lia|].
        replace (i - j)%nat with (S (i - S j)) by lia. simpl.
        rewrite Hs, He, Hbad. split; [done|]. by exists r'.
    + assert (i = j) as -> by (destruct Hv as [Hv|Hv]; congruence).
      rewrite Nat.sub_diag. simpl. split; [lia|]. split; [done|].
      exists r. split; [done|]. rewrite Hs, He.
      destruct Hv as [Hv|Hv]; congruence.
    + assert (i = j) as -> by (destruct Hv as [Hv|Hv]; congruence).
      rewrite Nat.sub_diag. simpl. split; [lia|]. split; [done|].
      exists r. split; [done|]. rewrite Hs.
      destruct Hv as [Hv|Hv]; congruence.
Qed.

(** When [validate] rejects a transcript because of a segment, the index
    in its message is the index of the first segment at fault: every
    segment before it has a start and an end, a start that is not
    negative and an end no earlier than its start, and the segment at
    the index lacks a time, starts before 0 or ends before it starts. *)
Theorem validate_reports_first_error
        (o : transcript_obj) (segs : list raw_segment) (i : nat) :
  to_segments o = Some segs ->
  validate (TObject o) = InvalidTimestamps i
  \/ validate (TObject o) = MissingTimes i ->
  validate_from 0 (take i segs) = Valid /\
  exists r, segs !! i = Some r /\
    match rs_start r, rs_end r with
    | Some s, Some e =>
        validate (TObject o) = InvalidTimestamps i /\ (s < 0 \/ e < s)
    | _, _ => validate (TObject o) = MissingTimes i
    end.
Proof.
  intros Ho Hv. simpl in *. rewrite Ho in *.
  destruct (validate_from_first_error 0 i segs Hv) as (_ & Hok & Hr).
  by rewrite Nat.sub_0_r in *.
Qed.

Lemma validate_reports_first_error_witness :
  validate_from 0 (take 1 [ Scenario.raw 0 2 "a"; Scenario.raw 5 3 "b" ])
  = Valid.
Proof.
  apply (validate_reports_first_error
           {| to_text := None; to_language := None;
              to_segments := Some [ Scenario.raw 0 2 "a";
                                    Scenario.raw 5 3 "b" ] |}
           _ 1 eq_refl).
  left. reflexivity.
Defined.

(** ** [_formatTime] *)

Lemma pad2_two_digits (k : nat) :
  (k < 100)%nat ->
  exists a b,
    padStart 2 (toString (Z.of_nat k)) = String a (String b EmptyString)
    /\ two_digits a b = Some (Z.of_nat k).
Proof.
  intros Hk.
  assert (forallb
            (fun k =>
               match padStart 2 (toString (Z.of_nat k)) with
               | String a (String b EmptyString) =>
                   match two_digits a b with
                   | Some v => v =? Z.of_nat k
                   | None => false
                   end
               | _ => false
               end)
            (seq 0 100) = true) as Htable by (vm_compute; reflexivity).
  rewrite forallb_forall in Htable.
  specialize (Htable k). 
  assert (In k (seq 0 100)) as Hin by (apply in_seq; lia).
  specialize (Htable Hin).
  destruct (padStart 2 (toString (Z.of_nat k))) as [|a [|b [|c rest]]];
    try done.
  destruct (two_digits a b) as [v|] eqn:Hv; [|done].
  apply Z.eqb_eq in Htable. subst v. by exists a, b.
Qed.

(** For a time of at least 0 and less than 100 hours, the stamp of
    [_formatTime] reads back as that time: stamps of different seconds
    differ. *)
Theorem _formatTime_read_back (seconds : Z) :
  0 <= seconds < 360000 ->
  read_stamp (_formatTime seconds) = Some seconds.
Proof.
  intros Hs. unfold _formatTime.
  rewrite !Z.rem_mod_nonneg by lia.
  set (h := seconds / 3600). set (m := seconds mod 3600 / 60).
  set (s := seconds mod 60).
  assert (0 <= h < 100) as Hh by (unfold h; split;
    [apply Z.div_pos; lia | apply Z.div_lt_upper_bound; lia]).
  assert (0 <= m < 60) as Hm.
  { unfold m. pose proof (Z.mod_pos_bound seconds 3600 ltac:(lia)).
    split; [apply Z.div_pos; lia | apply Z.div_lt_upper_bound; lia]. }
  assert (0 <= s < 60) as Hsec by (unfold s; apply Z.mod_pos_bound; lia).
  assert (h * 3600 + m * 60 + s = seconds) as Hsum.
  { unfold h, m, s.
    pose proof (Z.div_mod seconds 3600 ltac:(lia)) as H1.
    pose proof (Z.div_mod (seconds mod 3600) 60 ltac:(lia)) as H2.
    assert ((seconds mod 3600) mod 60 = seconds mod 60) as H3.
    { apply Z.mod_mod_divide. by exists 60. }
    lia. }
  destruct (pad2_two_digits (Z.to_nat h) ltac:(lia)) as (h1 & h2 & Hph & Hvh).
  destruct (pad2_two_digits (Z.to_nat m) ltac:(lia)) as (m1 & m2 & Hpm & Hvm).
  destruct (pad2_two_digits (Z.to_nat s) ltac:(lia)) as (s1 & s2 & Hps & Hvs).
  rewrite Z2Nat.id in Hph, Hpm, Hps, Hvh, Hvm, Hvs by lia.
  rewrite Hph, Hpm, Hps. simpl. rewrite Hvh, Hvm, Hvs. by rewrite Hsum.
Qed.

Lemma _formatTime_read_back_witness :
  read_stamp (_formatTime 3725) = Some 3725
  /\ _formatTime 3725 = "01:02:05".
Proof.
  split; [apply _formatTime_read_back; lia | reflexivity].
Defined.

End OutputProofs.

(* ===================================================================== *)
(** * Further properties of the remote worker pool *)
(* ===================================================================== *)

Module GroqMore.
Import Chunk GroqProcessor GroqPool PoolProps.

(** ** The rotation of the keys *)

Lemma next_keys_spec (cfg : config) (k : nat) :
  forall idx,
    (idx < length (apiKeys cfg))%nat ->
    next_keys cfg k idx
    = (List.map (fun j => default ""
                            (apiKeys cfg !! ((idx + j) mod length (apiKeys cfg))%nat))
                (seq 0 k),
       ((idx + k) mod length (apiKeys cfg))%nat).
Proof.
  induction k as [|k IH]; intros idx Hidx; simpl.
  - by rewrite Nat.add_0_r, Nat.mod_small.
  - destruct (GroqProofs.getNextApiKey_some cfg idx Hidx) as (key & Hkey & ->).
    rewrite IH by (apply Nat.mod_upper_bound; lia).
    f_equal.
    + f_equal.
      * by rewrite Nat.add_0_r, Nat.mod_small, Hkey.
      * rewrite <- seq_shift, List.map_map. apply List.map_ext. intros j.
        rewrite Nat.Div0.add_mod_idemp_l. do 3 f_equal. lia.
    + rewrite Nat.Div0.add_mod_idemp_l. f_equal. lia.
Qed.

(** As many calls of [getNextApiKey] as there are keys return every key
    once, in the circular order of the keys from the cursor, and leave
    the cursor where it was. *)
Theorem key_rotation_full_turn (cfg : config) (idx : nat) :
  (idx < length (apiKeys cfg))%nat ->
  next_keys cfg (length (apiKeys cfg)) idx
  = (drop idx (apiKeys cfg) ++ take idx (apiKeys cfg), idx).
Proof.
  intros Hidx. rewrite next_keys_spec by done.
  set (n := length (apiKeys cfg)) in *.
  f_equal.
  - assert (drop idx (apiKeys cfg) ++ take idx (apiKeys cfg)
            = rotate idx (apiKeys cfg)) as ->.
    { unfold rotate. fold n. by rewrite Nat.mod_small. }
    apply list_eq. intros i.
    destruct (decide (i < n)%nat) as [Hi|Hi].
    + rewrite lookup_rotate_r by done. fold n.
      assert (rotate_nat_add idx i n = ((idx + i) mod n)%nat) as ->.
      { unfold rotate_nat_add.
        by rewrite <- Nat2Z.inj_add, <- Nat2Z.inj_mod, Nat2Z.id. }
      change (List.map ?f ?l) with (f <$> l).
      rewrite list_lookup_fmap, lookup_seq_lt by done. simpl.
      destruct (lookup_lt_is_Some_2 (apiKeys cfg) ((idx + i) mod n)%nat)
        as [key Hkey]; [apply Nat.mod_upper_bound; lia|].
      by rewrite Hkey.
    + rewrite !lookup_ge_None_2; [done| |].
      * rewrite length_rotate. fold n. lia.
      * rewrite length_map, length_seq. lia.
  - rewrite <- (Nat.mul_1_l n) at 1.
    rewrite Nat.Div0.mod_add. by apply Nat.mod_small.
Qed.

Lemma key_rotation_full_turn_witness :
  next_keys Scenario.two_keys 2 1 = (["key-b"; "key-a"], 1%nat).
Proof.
  apply (key_rotation_full_turn Scenario.two_keys 1). vm_compute. lia.
Defined.

(** ** Retries that all fail *)





Section Failing.
Variable cfg : config.
Variable idx : nat.
Hypothesis Hidx : (idx < length (apiKeys cfg))%nat.
Hypothesis Hmany : (1 < length (apiKeys cfg))%nat.





End Failing.


(** ** The batches *)



Section Batches.
Context {A : Type} (settled : nat -> option A).


End Batches.




End GroqMore.

(* ===================================================================== *)
(** * Further properties of the transcription job *)
(* ===================================================================== *)

Module WhisperMore.
Import TranscriptMerger Chunk WhisperProcessor.


Lemma omap_length_le {A B} (f : A -> option B) (l : list A) :
  (length (omap f l) <= length l)%nat /\
  (length (omap f l) = length l <-> Forall (fun x => is_Some (f x)) l).
Proof.
  induction l as [|x l [IHle IHeq]].
  - simpl. split; [lia|]. split; [constructor | done].
  - change (omap f (x :: l))
      with (match f x with Some y => y :: omap f l | None => omap f l end).
    rewrite Forall_cons.
    destruct (f x) as [y|] eqn:Hx; cbn [length].
    + split; [lia|]. rewrite <- IHeq.
      split; [intros H; split; [by eexists | lia] | intros [_ H]; lia].
    + split; [lia|].
      split; [lia | intros [[y Hy] _]; done].
Qed.

(** ** When a job fails *)



(** ** When no chunk is transcribed *)



(** ** The chunk count *)

(** For a processor made for the local engine: the chunk count of the
    transcript of a job is at most the number of chunks of the split, and
    it is that number exactly when the engine gave, for every chunk, an
    answer with a [segments] array; a chunk that failed is not counted. *)
Theorem local_chunk_count
        (o : options) (st : state) (a d : string) (w : world)
        (chunks : list string) (m : merged) :
  default false (o_useGroq o) = false ->
  isProcessing st = false ->
  useGroq st = false ->
  w_split w = Some chunks ->
  snd (processAudio (fst (constructor o)) st a d w) = Return m ->
  (m_chunkCount m <= length chunks)%nat /\
  (m_chunkCount m = length chunks
   <-> forall i, (i < length chunks)%nat ->
         exists t segs, w_whisper w i = Some t /\ ct_segments t = Some segs).
Proof.
  intros Hlocal Hfree Hug Hsplit Hret.
  assert (groqProcessor (fst (constructor o)) = None
          /\ chunkProcessor (fst (constructor o)) = true) as [Hg Hcp].
  { simpl. by rewrite Hlocal. }
  remember (fst (constructor o)) as cfg eqn:Hcfg.
  unfold processAudio in Hret. rewrite Hfree in Hret.
  unfold try_block in Hret. cbn [useGroq] in Hret.
  rewrite Hsplit in Hret.
  destruct (w_mkdir w); cbn [negb] in Hret; [|done].
  unfold groq_branch, groq_ready in Hret. rewrite Hg, Hug in Hret.
  cbn [andb negb app] in Hret.
  destruct (w_write_json w); cbn [negb] in Hret; [|done].
  destruct (w_write_txt w); cbn [negb] in Hret; [|done].
  cbn [snd] in Hret. injection Hret as <-.
  assert (forall l D, m_chunkCount (merge l D) = length l) as Hcount
      by (by intros [|? ?] ?).
  rewrite Hcount, length_map. unfold local_branch. rewrite Hcp.
  match goal with
  | |- context [omap ?f ?l] =>
      destruct (omap_length_le f l) as [Hle Heq]
  end.
  rewrite length_seq in Hle, Heq. split; [exact Hle|].
  rewrite Heq, Forall_forall. split.
  - intros H i Hi. destruct (H i) as [t' Ht'].
    { apply list_elem_of_In, in_seq. lia. }
    unfold ChunkProcessor.processChunk, ChunkProcessor._adjustTimestamps in Ht'.
    destruct (w_whisper w i) as [t|]; [|done].
    destruct (ct_segments t) as [segs|] eqn:Hs; [|done]. by exists t, segs.
  - intros H i Hi. apply list_elem_of_In, in_seq in Hi.
    destruct (H i) as (t & segs & Ht & Hs); [lia|].
    unfold ChunkProcessor.processChunk, ChunkProcessor._adjustTimestamps.
    rewrite Ht, Hs. by eexists.
Qed.

Lemma local_chunk_count_witness :
  exists m,
    Scenario.transcribe Scenario.local Scenario.three_chunks = Return m /\
    (m_chunkCount m <= 3)%nat.
Proof.
  eexists. split; [reflexivity|].
  apply (local_chunk_count
           {| o_chunkDuration := Some 60; o_useGroq := None;
              o_groqApiKeys := None; o_groqMaxConcurrent := None |}
           (snd Scenario.local) "meeting.wav" "out" Scenario.three_chunks
           ["chunk_000.wav"; "chunk_001.wav"; "chunk_002.wav"] _
           eq_refl eq_refl eq_refl eq_refl eq_refl).
Defined.

End WhisperMore.

(* ===================================================================== *)
(** * Further properties of the recording session *)
(* ===================================================================== *)

Module RecordingMore.
Import RecordingManager Session.

(** ** Starting *)

(** [startRecording] resolves exactly when no session is active, an
    output path is given, the devices that the mode needs are named (a
    microphone for [mic], a loopback device for [system], both for [both],
    none for any other mode) and the recorder starts; when it throws, the
    session it found, or the absence of one, is what remains. *)
Theorem startRecording_resolves_iff
        (st : state) (o : options) (now1 now2 : Z)
        (recorder_error : option string) :
  let mode := JS.or_str (o_mode o) "both" in
  let r := startRecording st o now1 now2 recorder_error in
  (snd r = inr tt
   <-> currentRecording st = None /\
       given (o_outputPath o) = true /\
       (mode = "mic" -> given (o_micDevice o) = true) /\
       (mode = "system" -> given (o_loopbackDevice o) = true) /\
       (mode = "both" -> given (o_micDevice o) = true
                         /\ given (o_loopbackDevice o) = true) /\
       recorder_error = None) /\
  (snd r <> inr tt -> currentRecording (fst r) = currentRecording st).
Proof.
  intros mode r. unfold r, startRecording. fold mode.
  destruct (currentRecording st) as [rec|] eqn:Hrec.
  { simpl. split; [split; [done | by intros [H _]] | by rewrite Hrec]. }
  destruct (o_outputPath o) as [out|].
  2:{ simpl. split; [split; [done | by intros (_ & H & _)] | by rewrite Hrec]. }
  simpl. destruct (JS.truthy out) eqn:Hout; simpl.
  2:{ split; [split; [done | by intros (_ & H & _)] | by rewrite Hrec]. }
  destruct (String.eqb_spec mode "mic") as [Hmic|Hmic];
    destruct (String.eqb_spec mode "system") as [Hsys|Hsys];
    destruct (String.eqb_spec mode "both") as [Hboth|Hboth];
    try congruence;
    destruct (given (o_micDevice o)) eqn:Hm;
    destruct (given (o_loopbackDevice o)) eqn:Hl; simpl;
    try (split; [split; [done | intros (_ & _ & H1 & H2 & H3 & _);
                                 try (by specialize (H1 Hmic));
                                 try (by specialize (H2 Hsys));
                                 try (by destruct (H3 Hboth))]
                | by rewrite Hrec]);
    destruct recorder_error as [message|]; simpl;
    try (split; [split; [done | by intros (_ & _ & _ & _ & _ & H)]
                | by intros _]);
    (split; [split; [intros _; by repeat split | done] | done]).
Qed.

Lemma or_str_not_given (x : option string) (d : string) :
  given x = false -> JS.or_str x d = d.
Proof. destruct x as [s|]; simpl; [|done]. by intros ->. Qed.

(** When the caller names no mode, the mode that the handler of
    [recording:start] chooses is accepted by [startRecording] exactly when
    a microphone or a loopback device is named; with neither, the choice
    is [system] and the start is refused for want of a loopback device. *)
Theorem handler_mode_accepted
        (o : options) (outputPath : string) (now1 now2 : Z) :
  given (o_mode o) = false ->
  JS.truthy outputPath = true ->
  let r := startRecording constructor (handler_options o outputPath)
                          now1 now2 None in
  (snd r = inr tt
   <-> given (o_micDevice o) = true \/ given (o_loopbackDevice o) = true) /\
  (given (o_micDevice o) = false -> given (o_loopbackDevice o) = false ->
   snd r = inl "Loopback device required for system-only recording").
Proof.
  intros Hmode Hout r. unfold r, startRecording, handler_options, handler_mode.
  cbn [currentRecording constructor o_mode o_outputPath o_micDevice
       o_loopbackDevice].
  rewrite (or_str_not_given _ _ Hmode), Hout. cbn [negb].
  destruct (given (o_micDevice o)) eqn:Hm;
    destruct (given (o_loopbackDevice o)) eqn:Hl; cbn;
    (split; [split; [try done; auto | try done; intros [H|H]; done]
            | try done]).
Qed.

Lemma handler_mode_accepted_witness :
  snd (startRecording constructor
         (handler_options
            {| o_mode := None; o_outputPath := None;
               o_micDevice := Some "Microphone"; o_loopbackDevice := None |}
            "audio.wav") 0 0 None)
  = inr tt.
Proof.
  apply (handler_mode_accepted
           {| o_mode := None; o_outputPath := None;
              o_micDevice := Some "Microphone"; o_loopbackDevice := None |}
           "audio.wav" 0 0 eq_refl eq_refl).
  left. reflexivity.
Defined.

(** ** The state between two calls *)

Section Invariant.
Variable concat_list_path : string -> string.
Variable segment_path : string -> nat -> string.

Lemma cleared_ok : session_ok cleared.
Proof. by split. Qed.

Lemma start_ok (st : state) (o : options) (now1 now2 : Z)
      (recorder_error : option string) :
  session_ok st ->
  session_ok (fst (startRecording st o now1 now2 recorder_error)).
Proof.
  intros Hok. unfold startRecording.
  destruct (currentRecording st) as [rec|] eqn:Hrec; [done|].
  destruct (o_outputPath o) as [out|]; [|done].
  repeat match goal with
         | |- context [if ?b then _ else _] => destruct b; [done|]
         end.
  destruct recorder_error as [message|]; cbn [fst]; [apply cleared_ok|].
  unfold session_ok; cbn. split; [by eexists _, _|].
  split; [done|]. split; [constructor|lia].
Qed.

Lemma pause_ok (st : state) (recorder : recorder_stop) (now : Z) :
  session_ok st -> session_ok (fst (pauseRecording st recorder now)).
Proof.
  intros Hok. unfold pauseRecording.
  destruct (currentRecording st) as [rec|] eqn:Hrec; [|done].
  destruct (isPaused st) eqn:Hp; [done|].
  destruct recorder as [message|flag]; [done|]. cbn [fst].
  unfold session_ok in *. rewrite Hrec, Hp in Hok. cbn.
  destruct Hok as (Hsegs & _ & Hclosed & Hlen).
  split; [exact Hsegs|].
  exists now, (r_gaps rec), {| g_start := now; g_end := None;
                               g_duration := None |}.
  repeat split; try done.
  left. split; [done|]. rewrite length_app. simpl. lia.
Qed.

Lemma resume_ok (st : state) (resumeTime now2 : Z)
      (recorder_error : option string) :
  session_ok st ->
  session_ok (fst (resumeRecording segment_path st resumeTime now2
                                   recorder_error)).
Proof.
  intros Hok. unfold resumeRecording.
  destruct (currentRecording st) as [rec|] eqn:Hrec; [|done].
  destruct (isPaused st) eqn:Hp; [|done]. cbn [negb].
  unfold session_ok in Hok. rewrite Hrec, Hp in Hok.
  destruct Hok as ((first & rest & Hsegs & Hfirst)
                   & t & init & g & Ht & Hgaps & Hinit & Hg & Hcase).
  assert (length (r_gaps rec) <= length (r_segments rec))%nat as Hlen
      by (destruct Hcase as [[_ ?]|[_ ?]]; lia).
  assert (close_last_gap resumeTime (resumeTime - default 0 (pauseStartTime st))
                         (r_gaps rec)
          = init ++ [ {| g_start := g_start g; g_end := Some resumeTime;
                         g_duration := Some (resumeTime - t) |} ]) as Hclose.
  { rewrite Hgaps, RecordingProofs.close_last_gap_snoc, Ht. done. }
  assert (gap_closed {| g_start := g_start g; g_end := Some resumeTime;
                        g_duration := Some (resumeTime - t) |}) as Hnew.
  { exists resumeTime. simpl. by rewrite Hg. }
  destruct recorder_error as [message|]; cbn [fst]; unfold session_ok; cbn;
    rewrite ?Hp, Hclose, Hsegs; cbn.
  - split; [by eexists _, _|].
    eexists t, init, _. repeat split; try done.
    right. split; [done|].
    rewrite Hgaps, Hsegs in Hlen. rewrite length_app in Hlen.
    rewrite !length_app. simpl in *. lia.
  - split; [by eexists _, _|]. split; [done|]. split.
    + apply Forall_app. split; [done|]. by constructor.
    + rewrite Hgaps, Hsegs in Hlen. rewrite length_app in Hlen.
      rewrite !length_app. simpl in *. lia.
Qed.

Lemma step_ok (sf : state * gset string) (c : op) :
  session_ok (fst sf) ->
  session_ok (fst (step concat_list_path segment_path sf c)).
Proof.
  destruct sf as [st files]. intros Hok. cbn [fst] in Hok.
  destruct c as [o now1 now2 e|recorder now|resumeTime now2 e
                 |recorder w unlink_ok now|]; cbn [step fst].
  - by apply start_ok.
  - by apply pause_ok.
  - by apply resume_ok.
  - unfold stopRecording.
    destruct (currentRecording st) as [rec|] eqn:Hrec.
    + destruct recorder as [message|flag]; [apply cleared_ok|].
      destruct (if (1 <? length (r_segments rec))%nat then _ else _)
        as [files' mergeError].
      apply cleared_ok.
    + exact Hok.
  - apply cleared_ok.
Qed.

(** Whatever calls of [startRecording], [pauseRecording],
    [resumeRecording], [stopRecording] and [forceStop] are made one
    after the other from the construction of the manager, and whatever
    the recorder, the clock and the concatenation do in them, as long as
    the health check reports no crash of the capture process (its
    handler [_handleProcessCrash], which writes a gap of its own, is not
    one of these calls): without a session the manager is not paused; a
    session has at least one segment, and the first is the output file;
    while the session is paused the last gap starts at the time of the
    pause, every gap before it is closed, and the last gap is either
    open, with no more gaps than segments, or closed, by a resume that
    the recorder refused, with fewer gaps than segments; while the
    session is not paused every gap is closed and there are fewer gaps
    than segments; a closed gap has an end and the duration
    end - start. *)
Theorem session_always_ok (ops : list op) (files : gset string) :
  session_ok (fst (run concat_list_path segment_path ops files)).
Proof.
  unfold run.
  assert (session_ok (fst (constructor, files))) as Hinit by (by split).
  revert Hinit. generalize (constructor, files).
  induction ops as [|c ops IH]; intros sf Hok; simpl; [done|].
  apply IH. by apply step_ok.
Qed.

End Invariant.

(** ** Resuming after a resume that failed *)

Section Resume.
Variable segment_path : string -> nat -> string.

(** When the recorder does not start at a resume, [resumeRecording]
    reports the failure and the session stays paused, but the gap has
    been closed and a segment added all the same; a second resume that
    succeeds closes the same gap again, with its own time, and adds one
    more segment: the session then holds two segments for that one pause. *)
Theorem resume_after_failed_resume
        (st : state) (rec : recording) (t : Z) (init : list gap) (g : gap)
        (resumeTime1 now1 resumeTime2 now2 : Z) (message : string) :
  currentRecording st = Some rec ->
  isPaused st = true ->
  pauseStartTime st = Some t ->
  r_gaps rec = init ++ [g] ->
  g_start g = t ->
  let r1 := resumeRecording segment_path st resumeTime1 now1 (Some message) in
  let r2 := resumeRecording segment_path (fst r1) resumeTime2 now2 None in
  snd r1 = Failure message /\
  isPaused (fst r1) = true /\
  snd r2 = Success /\
  isPaused (fst r2) = false /\
  exists rec2,
    currentRecording (fst r2) = Some rec2 /\
    r_gaps rec2 = init ++ [ {| g_start := t; g_end := Some resumeTime2;
                               g_duration := Some (resumeTime2 - t) |} ] /\
    r_segments rec2 =
      r_segments rec ++
      [ {| s_path := segment_path (r_outputPath rec)
                                  (length (r_segments rec) + 1);
           s_startTime := now1 |};
        {| s_path := segment_path (r_outputPath rec)
                                  (length (r_segments rec) + 2);
           s_startTime := now2 |} ].
Proof.
  intros Hrec Hp Ht Hgaps Hg r1 r2.
  unfold r2, r1, resumeRecording. rewrite Hrec, Hp. cbn.
  rewrite Ht, Hgaps. cbn.
  repeat (split; [done|]).
  eexists. split; [reflexivity|]. cbn.
  rewrite !RecordingProofs.close_last_gap_snoc. cbn. rewrite Hg.
  split; [done|].
  rewrite <- app_assoc, length_app. cbn.
  by replace (length (r_segments rec) + 1 + 1)%nat
    with (length (r_segments rec) + 2)%nat by lia.
Qed.

End Resume.

Lemma resume_after_failed_resume_witness :
  exists rec2,
    currentRecording
      (fst (resumeRecording Scenario.segment_file
              (fst (resumeRecording Scenario.segment_file
                      (fst (pauseRecording Scenario.started
                              (StopResolves true) 10))
                      15 15 (Some "device busy")))
              20 20 None)) = Some rec2 /\
    r_gaps rec2 = [ {| g_start := 10; g_end := Some 20;
                       g_duration := Some 10 |} ] /\
    length (r_segments rec2) = 3%nat.
Proof.
  destruct (resume_after_failed_resume Scenario.segment_file
              (fst (pauseRecording Scenario.started (StopResolves true) 10))
              _ 10 [] {| g_start := 10; g_end := None; g_duration := None |}
              15 15 20 20 "device busy" eq_refl eq_refl eq_refl eq_refl eq_refl)
    as (_ & _ & _ & _ & rec2 & Hrec2 & Hgaps & Hsegs).
  exists rec2. split; [exact Hrec2|]. split; [exact Hgaps|].
  by rewrite Hsegs.
Defined.


(** ** What the concatenation does to the files *)

Section Concat.
Variable concat_list_path : string -> string.

Lemma unlink_all (unlink_ok : string -> bool) (l : list rec_segment) :
  forall fs : gset string,
    let fs' := fold_left (fun fs seg => unlink unlink_ok (s_path seg) fs) l fs in
    fs' ⊆ fs /\
    (forall seg, seg ∈ l -> unlink_ok (s_path seg) = true ->
                 s_path seg ∉ fs') /\
    (forall p, p ∈ fs -> p ∉ List.map s_path l -> p ∈ fs').
Proof.
  induction l as [|s l IH]; intros fs; simpl.
  - split; [done|]. split; [intros seg Hin; by apply elem_of_nil in Hin|done].
  - destruct (IH (unlink unlink_ok (s_path s) fs)) as (Hsub & Hgone & Hkept).
    assert (unlink unlink_ok (s_path s) fs ⊆ fs) as Hsub1.
    { unfold unlink. destruct (unlink_ok _); [|done].
      intros p Hp. by apply elem_of_difference in Hp as [Hp _]. }
    split; [by etrans|]. split.
    + intros seg Hin Hok. apply elem_of_cons in Hin as [-> | Hin].
      * intros Hp. apply Hsub in Hp. unfold unlink in Hp. rewrite Hok in Hp.
        apply elem_of_difference in Hp as [_ Hp]. apply Hp.
        by apply elem_of_singleton.
      * by apply Hgone.
    + intros p Hp Hnot. apply not_elem_of_cons in Hnot as [Hne Hnot].
      apply Hkept; [|done]. unfold unlink. destruct (unlink_ok _); [|done].
      apply elem_of_difference. split; [done|].
      intros Heq. by apply elem_of_singleton in Heq.
Qed.

Lemma merge_exit_zero
      (segments : list rec_segment) (outputPath stderr : string)
      (files : gset string) :
  let r := _mergeSegments concat_list_path segments outputPath
                          (Exits 0 stderr) (fun _ => true) files in
  snd r = None /\
  (forall seg, seg ∈ drop 1 segments -> s_path seg ∉ fst r) /\
  (outputPath <> concat_list_path outputPath ->
   outputPath ∉ later_paths segments -> outputPath ∈ fst r).
Proof.
  intros r. unfold r, _mergeSegments.
  rewrite bool_decide_eq_true_2 by done. cbn [fst snd].
  set (listPath := concat_list_path outputPath).
  destruct (unlink_all (fun _ => true) (drop 1 segments)
              (unlink (fun _ => true) listPath
                      (files ∪ {[listPath]} ∪ {[outputPath]})))
    as (_ & Hgone & Hkept).
  split; [done|]. split; [intros seg Hin; by apply Hgone|].
  intros Hne Hnot. apply Hkept; [|done].
  unfold unlink. apply elem_of_difference. split.
  - apply elem_of_union_r. by apply elem_of_singleton.
  - intros Heq. by apply elem_of_singleton in Heq.
Qed.

(** When the concatenation process runs and exits, whatever its exit
    code: the promise resolves exactly for the code 0; the file of every
    segment after the first is gone if its unlink works; no file that is
    neither the list file nor the file of a later segment is deleted; and
    after the code 0 the output file exists, if it is neither of those. *)
Theorem merge_exit_cleans_up
        (segments : list rec_segment) (outputPath : string)
        (code : Z) (stderr : string)
        (unlink_ok : string -> bool) (files : gset string) :
  let r := _mergeSegments concat_list_path segments outputPath
                          (Exits code stderr) unlink_ok files in
  (snd r = None <-> code = 0) /\
  (forall seg, seg ∈ drop 1 segments -> unlink_ok (s_path seg) = true ->
               s_path seg ∉ fst r) /\
  (forall p, p ∈ files -> p <> concat_list_path outputPath ->
             p ∉ later_paths segments -> p ∈ fst r) /\
  (code = 0 -> outputPath <> concat_list_path outputPath ->
   outputPath ∉ later_paths segments -> outputPath ∈ fst r).
Proof.
  intros r. unfold r, _mergeSegments.
  set (listPath := concat_list_path outputPath).
  set (written := if bool_decide (code = 0)
                  then files ∪ {[listPath]} ∪ {[outputPath]}
                  else files ∪ {[listPath]}).
  destruct (unlink_all unlink_ok (drop 1 segments)
              (unlink unlink_ok listPath written)) as (Hsub & Hgone & Hkept).
  assert (forall p, p ∈ written -> p <> listPath ->
                    p ∈ unlink unlink_ok listPath written) as Hlist.
  { intros p Hp Hne. unfold unlink. destruct (unlink_ok _); [|done].
    apply elem_of_difference. split; [done|].
    intros Heq. by apply elem_of_singleton in Heq. }
  split.
  { case_bool_decide; simpl; split; done. }
  split.
  { intros seg Hin Hok. case_bool_decide; simpl; by apply Hgone. }
  split.
  { intros p Hp Hne Hnot.
    assert (p ∈ written) as Hw.
    { unfold written. case_bool_decide; repeat apply elem_of_union_l; done. }
    case_bool_decide; simpl; apply Hkept; auto. }
  intros Hcode Hne Hnot. rewrite bool_decide_eq_true_2 by done. simpl.
  apply Hkept; [|done]. apply Hlist; [|done].
  unfold written. rewrite bool_decide_eq_true_2 by done.
  apply elem_of_union_r. by apply elem_of_singleton.
Qed.
End Concat.

(** ** A whole recording *)

Section Round.
Variable concat_list_path : string -> string.
Variable segment_path : string -> nat -> string.

Lemma started_recording (o : options) (now1 now2 : Z) (st : state) :
  startRecording constructor o now1 now2 None = (st, inr tt) ->
  exists rec out,
    o_outputPath o = Some out /\
    currentRecording st = Some rec /\ isPaused st = false /\
    r_startTime rec = now1 /\ r_outputPath rec = out /\ r_gaps rec = [] /\
    r_segments rec = [ {| s_path := out; s_startTime := now2 |} ].
Proof.
  intros Hstart. unfold startRecording in Hstart. cbn in Hstart.
  destruct (o_outputPath o) as [out|]; [|by inversion Hstart].
  repeat match type of Hstart with
         | (if ?b then _ else _) = _ => destruct b; [by inversion Hstart|]
         end.
  inversion Hstart; subst. by eexists _, out.
Qed.

(** A session that is started, paused and resumed any number of times
    and then stopped, the recorder doing each time what it was asked and
    the concatenation exiting with code 0: when the paths of the later
    segments and of the list file differ from the output path and every
    unlink works, the stop reports success without a merge error, with
    the duration from the start to the stop (pauses included), the closed
    gaps of the pauses and one segment more than there were pauses; the
    session is closed, no file of a later segment is left, and the output
    file exists if it existed before or a concatenation took place. *)
Theorem recording_round
        (o : options) (out : string) (now1 now2 now : Z) (st : state)
        (cycles : list cycle) (stderr : string) (files : gset string) :
  startRecording constructor o now1 now2 None = (st, inr tt) ->
  o_outputPath o = Some out ->
  (forall i, segment_path out i <> out) ->
  concat_list_path out <> out ->
  let st' := fst (pause_resume_all segment_path st cycles) in
  let r := stopRecording concat_list_path st' (StopResolves true)
                         (Exits 0 stderr) (fun _ => true) now files in
  fst (fst r) = cleared /\
  exists info,
    snd r = Stopped info /\
    success info = true /\ mergeError info = None /\
    outputPath info = out /\
    duration info = now - now1 /\
    gaps info = List.map closed_gap cycles /\
    length (segments info) = S (length cycles) /\
    (forall i, (i < length cycles)%nat ->
               segment_path out (i + 2) ∉ snd (fst r)) /\
    (out ∈ files \/ cycles <> [] -> out ∈ snd (fst r)).
Proof.
  intros Hstart Hout Hseg Hlist st' r.
  destruct (started_recording o now1 now2 st Hstart)
    as (rec & out' & Hout' & Hrec & Hrun & Htime & Hpath & Hgaps & Hsegs).
  assert (out' = out) as -> by congruence.
  destruct (RecordingProofs.pause_resume_all_recording segment_path cycles
              st rec Hrec Hrun)
    as (st1 & rec1 & Hall & Hrec1 & _ & Htime1 & Hpath1 & Hgaps1 & Hsegs1).
  assert (st' = st1) as -> by (unfold st'; by rewrite Hall).
  rewrite Hgaps in Hgaps1. rewrite Hsegs, Hpath in Hsegs1.
  cbn [app length] in Hgaps1, Hsegs1.
  unfold r, stopRecording. rewrite Hrec1.
  assert (length (r_segments rec1) = S (length cycles)) as Hlen.
  { rewrite Hsegs1. cbn. by rewrite length_imap. }
  rewrite Hlen.
  destruct cycles as [|c cycles].
  - cbn. split; [done|]. eexists. split; [reflexivity|]. cbn.
    rewrite Hpath1, Hpath, Htime1, Htime, Hgaps1, Hsegs1.
    repeat split; try done.
    + intros i Hi. simpl in Hi. lia.
    + by intros [Hin|Hne].
  - replace (1 <? S (length (c :: cycles)))%nat with true
      by (symmetry; apply Nat.ltb_lt; simpl; lia).
    pose proof (merge_exit_zero concat_list_path (r_segments rec1)
                  (r_outputPath rec1) stderr files)
      as (Hres & Hgone & Hkept).
    destruct (_mergeSegments concat_list_path (r_segments rec1)
                (r_outputPath rec1) (Exits 0 stderr) (fun _ => true) files)
      as [files' mergeError].
    cbn [fst snd] in *.
    assert (mergeError = None) as -> by exact Hres.
    split; [done|]. eexists. split; [reflexivity|]. cbn.
    rewrite Hpath1, Hpath, Htime1, Htime, Hgaps1.
    repeat split; try done.
    + intros i Hi.
      destruct (lookup_lt_is_Some_2 (c :: cycles) i Hi) as [ci Hci].
      specialize (Hgone {| s_path := segment_path out (1 + i + 1);
                           s_startTime := c_resume2 ci |}).
      replace (1 + i + 1)%nat with (i + 2)%nat in Hgone by lia.
      apply Hgone.
      rewrite Hsegs1. cbn [drop].
      replace (i + 2)%nat with (1 + i + 1)%nat by lia.
      by apply (elem_of_lookup_imap_2
                  (fun i c => {| s_path := segment_path out (1 + i + 1);
                                 s_startTime := c_resume2 c |})
                  (c :: cycles) ci i).
    + intros _. rewrite Hpath1, Hpath in Hkept.
      apply Hkept; [by apply not_eq_sym |].
      unfold later_paths. rewrite Hsegs1. cbn [drop].
      intros Hin. apply list_elem_of_In, in_map_iff in Hin
        as (seg & Hp & Hin).
      apply list_elem_of_In, elem_of_lookup_imap in Hin
        as (i & ci & -> & _).
      simpl in Hp. by apply Hseg in Hp.
Qed.
End Round.

Lemma recording_round_witness :
  exists info,
    snd (stopRecording Scenario.list_path Scenario.resumed
           (StopResolves true) (Exits 0 "") (fun _ => true) 20
           Scenario.recorded)
    = Stopped info /\
    success info = true /\
    gaps info = [ {| g_start := 10; g_end := Some 15;
                     g_duration := Some 5 |} ].
Proof.
  destruct (recording_round Scenario.list_path Scenario.segment_file
              Scenario.start_options "rec.wav" 0 0 20 Scenario.started
              [Scenario.pause_10_resume_15] "" Scenario.recorded
              eq_refl eq_refl)
    as (_ & info & Hstop & Hsucc & _ & _ & _ & Hgaps & _).
  - intros i. unfold Scenario.segment_file. discriminate.
  - unfold Scenario.list_path. discriminate.
  - exists info. split; [exact Hstop|]. split; [exact Hsucc | exact Hgaps].
Defined.

End RecordingMore.

(* ===================================================================== *)
(** * Properties of the merged text *)
(* ===================================================================== *)

Module TextProofs.
Import TranscriptMerger TextProps.

Lemma single_spaced_weaken (s : string) :
  single_spaced true s -> single_spaced false s.
Proof.
  destruct s as [|c s]; simpl; [done|].
  destruct (JS.is_ws c); [|done]. by intros (_ & ? & _).
Qed.

Lemma single_spaced_true_starts_clean (s : string) :
  single_spaced true s -> starts_clean s.
Proof.
  destruct s as [|c s]; simpl; [done|].
  destruct (JS.is_ws c); [|done]. by intros (_ & ? & _).
Qed.

Lemma collapse_single_spaced (s : string) :
  forall b, single_spaced b (JS.collapse_ws b s).
Proof.
  induction s as [|c s IH]; intros b; simpl; [done|].
  destruct (JS.is_ws c) eqn:Hc.
  - destruct b; [apply IH|]. simpl. repeat split; apply IH.
  - simpl. rewrite Hc. apply IH.
Qed.

Lemma collapse_fixed (s : string) :
  forall b, single_spaced b s -> JS.collapse_ws b s = s.
Proof.
  induction s as [|c s IH]; intros b Hs; simpl in *; [done|].
  destruct (JS.is_ws c) eqn:Hc.
  - destruct Hs as (-> & -> & Hs). by rewrite IH.
  - by rewrite IH.
Qed.

Lemma trimStart_clean (s : string) : starts_clean s -> JS.trimStart s = s.
Proof. destruct s as [|c s]; simpl; [done|]. by intros ->. Qed.

Lemma trimStart_starts_clean (s : string) : starts_clean (JS.trimStart s).
Proof.
  induction s as [|c s IH]; simpl; [done|].
  destruct (JS.is_ws c) eqn:Hc; [done|]. simpl. exact Hc.
Qed.

Lemma trimStart_single_spaced (s : string) :
  forall b, single_spaced b s -> single_spaced false (JS.trimStart s).
Proof.
  induction s as [|c s IH]; intros b Hs; simpl in *; [done|].
  destruct (JS.is_ws c) eqn:Hc.
  - destruct Hs as (_ & _ & Hs). by apply (IH true).
  - simpl. by rewrite Hc.
Qed.

Lemma trimEnd_single_spaced (s : string) :
  forall b, single_spaced b s -> single_spaced b (JS.trimEnd s).
Proof.
  induction s as [|c s IH]; intros b Hs; simpl in *; [done|].
  destruct (JS.is_ws c) eqn:Hc.
  - destruct Hs as (-> & -> & Hs). specialize (IH true Hs).
    destruct (JS.trimEnd s) as [|d r]; [done|].
    change (single_spaced false (String " " (String d r))).
    simpl. by repeat split.
  - specialize (IH false Hs).
    destruct (JS.trimEnd s) as [|d r]; simpl; by rewrite Hc.
Qed.

Lemma trimEnd_starts_clean (s : string) :
  starts_clean s -> starts_clean (JS.trimEnd s).
Proof.
  destruct s as [|c s]; simpl; [done|]. intros Hc.
  destruct (JS.trimEnd s); simpl; by rewrite ?Hc.
Qed.

Lemma trimEnd_ends_clean (s : string) : ends_clean (JS.trimEnd s).
Proof.
  induction s as [|c s IH]; simpl; [done|].
  destruct (JS.trimEnd s) as [|d r] eqn:Hr.
  - destruct (JS.is_ws c) eqn:Hc; simpl; done.
  - exact IH.
Qed.

Lemma trimEnd_clean (s : string) : ends_clean s -> JS.trimEnd s = s.
Proof.
  induction s as [|c s IH]; simpl; [done|].
  destruct s as [|d s].
  - simpl. by intros ->.
  - intros He. rewrite (IH He). done.
Qed.

(** The text of a merged transcript is in normal form: it neither
    begins nor ends with white space, all its white space is single
    spaces between other characters, and normalizing it once more with
    [replace(/\s+/g, ' ').trim()] gives the same text. *)
Theorem merged_text_normal (ts : list transcript_input) (D : Z) :
  let text := m_text (merge ts D) in
  starts_clean text /\ ends_clean text /\ single_spaced false text /\
  JS.trim (JS.collapse_ws false text) = text.
Proof.
  intros text.
  assert (exists x, text = JS.trim (JS.collapse_ws false x)) as [x ->].
  { unfold text. destruct ts as [|t ts]; [by exists ""|].
    unfold merge, _combineText. cbn [m_text].
    destruct (_deduplicateSegments _); [by exists ""|]. by eexists. }
  pose proof (collapse_single_spaced x false) as Hss.
  unfold JS.trim.
  pose proof (trimStart_starts_clean (JS.collapse_ws false x)) as Hsc.
  pose proof (trimStart_single_spaced _ _ Hss) as Hss1.
  pose proof (trimEnd_single_spaced _ _ Hss1) as Hss2.
  pose proof (trimEnd_starts_clean _ Hsc) as Hsc2.
  pose proof (trimEnd_ends_clean (JS.trimStart (JS.collapse_ws false x)))
    as Hec.
  repeat split; try done.
  rewrite (collapse_fixed _ _ Hss2), (trimStart_clean _ Hsc2).
  by apply trimEnd_clean.
Qed.

End TextProofs.


(* ===================================================================== *)
(** * Proofs: the temporary files *)
(* ===================================================================== *)

Module CleanupProofs.

Import ProcessCleanup CleanupProps.

Lemma set_delete_absent (p : string) (l : list string) :
  p ∉ l -> set_delete p l = l.
Proof.
  induction l as [|q l IH]; intros Hp; [done|].
  apply not_elem_of_cons in Hp as [Hne Hl].
  unfold set_delete in *. cbn [List.filter].
  destruct (String.eqb_spec q p) as [->|_]; [done|].
  cbn [negb]. by rewrite IH.
Qed.

Lemma set_delete_middle (p : string) (kept todo : list string) :
  p ∉ kept -> p ∉ todo -> set_delete p (kept ++ p :: todo) = kept ++ todo.
Proof.
  intros Hk Ht. unfold set_delete.
  rewrite List.filter_app. cbn [List.filter].
  rewrite String.eqb_refl. cbn [negb].
  fold (set_delete p kept). fold (set_delete p todo).
  by rewrite !set_delete_absent.
Qed.

Lemma set_add_NoDup (p : string) (s : list string) :
  NoDup s -> NoDup (set_add p s).
Proof.
  intros Hs. unfold set_add. case_bool_decide as Hp; [done|].
  apply NoDup_app. split_and!; [done| |apply NoDup_singleton].
  intros q Hq Hq'. apply list_elem_of_singleton in Hq'. by subst.
Qed.

Lemma outcome_other (blocked : string -> option string) (files : gset string)
      (p : string) (l : list string) :
  p ∉ l ->
  map (fun q => (q, outcome blocked (files ∖ {[ p ]}) q)) l
  = map (fun q => (q, outcome blocked files q)) l.
Proof.
  induction l as [|q l IH]; intros Hp; [done|].
  apply not_elem_of_cons in Hp as [Hne Hl].
  cbn [map]. rewrite IH by done. do 2 f_equal.
  unfold outcome. destruct (blocked q); [done|].
  assert (bool_decide (q ∈ files ∖ {[ p ]}) = bool_decide (q ∈ files)) as ->;
    [|done].
  apply bool_decide_ext.
  rewrite elem_of_difference, elem_of_singleton.
  split; [by intros [? _]|intros Hq; split; [done|congruence]].
Qed.

(** The loop of [removeAllTempFiles] from any state in which the paths
    to visit are the last of the set. *)
Lemma remove_loop (blocked : string -> option string) (todo : list string) :
  forall (kept : list string) (fs : gset string)
         (results : list (string * remove_result)),
    NoDup (kept ++ todo) ->
    exists fs',
      fold_left
        (fun acc filePath =>
           let '(temp, fs, results) := acc in
           let '(temp', fs', result) :=
             removeTempFile blocked filePath temp fs in
           (temp', fs', results ++ [(filePath, result)]))
        todo (kept ++ todo, fs, results)
      = (kept ++ List.filter (stuck blocked) todo, fs',
         results ++ map (fun p => (p, outcome blocked fs p)) todo)
      /\ (forall p, p ∈ fs' <-> p ∈ fs /\ (p ∈ todo -> is_Some (blocked p))).
Proof.
  induction todo as [|p todo IH]; intros kept fs results Hnd.
  - exists fs. cbn [fold_left List.filter map].
    rewrite !app_nil_r. split; [done|].
    intros q. split; [intros Hq; split; [done|]|by intros [? _]].
    intros Hq'. by apply elem_of_nil in Hq'.
  - apply NoDup_app in Hnd as (Hk & Hkt & Ht).
    apply NoDup_cons in Ht as [Hpt Ht].
    assert (p ∉ kept) as Hpk.
    { intros Hin. apply (Hkt p Hin). apply elem_of_cons. by left. }
    assert (NoDup (kept ++ todo)) as Hnd'.
    { apply NoDup_app. split_and!; [done| |done].
      intros q Hq Hq'. apply (Hkt q Hq). apply elem_of_cons. by right. }
    cbn [fold_left]. unfold removeTempFile at 2, fs_unlink.
    destruct (blocked p) as [message|] eqn:Hb.
    + destruct (IH (kept ++ [p]) fs (results ++ [(p, NotRemoved message)]))
        as (fs' & Hrun & Hfs).
      { rewrite <- app_assoc. cbn [app]. apply NoDup_app.
        split_and!; [done|done|]. by apply NoDup_cons. }
      exists fs'. split.
      * rewrite <- app_assoc in Hrun. cbn [app] in Hrun. rewrite Hrun.
        cbn [List.filter map]. unfold stuck at 2, outcome at 2.
        rewrite Hb.
        rewrite (bool_decide_eq_true_2 (is_Some (Some message)));
          [|by eexists].
        by rewrite <- !app_assoc.
      * intros q. rewrite Hfs. split; intros [Hq Hb']; split; try done.
        -- intros Hq'. apply elem_of_cons in Hq' as [->|Hq'];
             [by rewrite Hb; eexists|by apply Hb'].
        -- intros Hq'. apply Hb'. apply elem_of_cons. by right.
    + destruct (bool_decide (p ∈ fs)) eqn:Hin.
      * apply bool_decide_eq_true in Hin.
        rewrite set_delete_middle by done.
        destruct (IH kept (fs ∖ {[ p ]}) (results ++ [(p, Removed)]) Hnd')
          as (fs' & Hrun & Hfs).
        exists fs'. split.
        -- rewrite Hrun. cbn [List.filter map].
           unfold stuck at 2, outcome at 2. rewrite Hb.
           rewrite (bool_decide_eq_true_2 _ Hin).
           rewrite (bool_decide_eq_false_2 (is_Some None));
             [|by intros [? ?]].
           rewrite outcome_other by done.
           by rewrite <- !app_assoc.
        -- intros q. rewrite Hfs, elem_of_difference, elem_of_singleton.
           split.
           ++ intros [[Hq Hne] Hb']. split; [done|].
              intros Hq'. apply elem_of_cons in Hq' as [->|Hq'];
                [done|by apply Hb'].
           ++ intros [Hq Hb']. split_and!; [done| |].
              ** intros ->.
                 destruct Hb' as [m Hm]; [apply elem_of_cons; by left|].
                 congruence.
              ** intros Hq'. apply Hb'. apply elem_of_cons. by right.
      * apply bool_decide_eq_false in Hin.
        rewrite set_delete_middle by done.
        destruct (IH kept fs (results ++ [(p, AlreadyRemoved)]) Hnd')
          as (fs' & Hrun & Hfs).
        exists fs'. split.
        -- rewrite Hrun. cbn [List.filter map].
           unfold stuck at 2, outcome at 2. rewrite Hb.
           rewrite (bool_decide_eq_false_2 _ Hin).
           rewrite (bool_decide_eq_false_2 (is_Some None));
             [|by intros [? ?]].
           by rewrite <- !app_assoc.
        -- intros q. rewrite Hfs. split; intros [Hq Hb']; split; try done.
           ++ intros Hq'. apply elem_of_cons in Hq' as [->|Hq'];
                [done|by apply Hb'].
           ++ intros Hq'. apply Hb'. apply elem_of_cons. by right.
Qed.

Lemma tracked_NoDup (paths : list string) :
  forall s, NoDup s ->
            NoDup (fold_left (fun s p => trackTempFile p s) paths s).
Proof.
  induction paths as [|p paths IH]; intros s Hs; [done|].
  cbn [fold_left]. apply IH. by apply set_add_NoDup.
Qed.

Lemma tracked_elem (paths : list string) :
  forall s p, p ∈ fold_left (fun s p => trackTempFile p s) paths s
              <-> p ∈ s \/ p ∈ paths.
Proof.
  induction paths as [|q paths IH]; intros s p; cbn [fold_left].
  - split; [by left|]. intros [?|H]; [done|by apply elem_of_nil in H].
  - rewrite IH, elem_of_cons. unfold trackTempFile, set_add.
    case_bool_decide as Hq.
    + split; [intros [?|?]; auto|].
      intros [?|[->|?]]; auto.
    + rewrite elem_of_app, list_elem_of_singleton. tauto.
Qed.

Lemma filter_none {A : Type} (f : A -> bool) (l : list A) :
  (forall x, f x = false) -> List.filter f l = [].
Proof.
  intros Hf. induction l as [|x l IH]; [done|].
  cbn [List.filter]. by rewrite Hf.
Qed.

(** [removeAllTempFiles] answers for every tracked path, in the order
    of tracking; afterwards the paths still tracked are exactly those
    for which the system answered with an error other than ENOENT,
    whether a file exists there or not, and of the files on disk
    exactly the tracked ones for which it had no such error are gone. *)
Theorem removeAllTempFiles_leaves_refused
        (blocked : string -> option string) (tempFiles : list string)
        (files : gset string) :
  NoDup tempFiles ->
  exists files',
    removeAllTempFiles blocked tempFiles files
    = (List.filter (stuck blocked) tempFiles, files',
       map (fun p => (p, outcome blocked files p)) tempFiles)
    /\ (forall p, p ∈ files'
                  <-> p ∈ files /\ (p ∈ tempFiles -> is_Some (blocked p))).
Proof.
  intros Hnd.
  destruct (remove_loop blocked tempFiles [] files [] Hnd) as (fs' & Hrun & Hfs).
  exists fs'. split; [|done]. exact Hrun.
Qed.

Lemma removeAllTempFiles_leaves_refused_witness :
  NoDup tracked
  /\ exists files',
    removeAllTempFiles refusals tracked disk
    = (["b.wav"; "b.wav/x"], files',
       [ ("a.wav", Removed); ("b.wav", NotRemoved "EBUSY");
         ("gone.wav", AlreadyRemoved); ("b.wav/x", NotRemoved "ENOTDIR") ])
    /\ (forall p, p ∈ files'
                  <-> p ∈ disk /\ (p ∈ tracked -> is_Some (refusals p))).
Proof.
  assert (NoDup tracked) as Hnd.
  { compute_done. }
  split; [exact Hnd|].
  destruct (removeAllTempFiles_leaves_refused refusals tracked disk Hnd)
    as (files' & Hrun & Hfiles).
  exists files'. split; [|exact Hfiles].
  rewrite Hrun. reflexivity.
Defined.

(** The files tracked one after the other, whatever the repetitions,
    are all gone after [removeAllTempFiles] when the system refuses no
    removal, nothing is tracked any more, and no other file is touched. *)
Theorem tracked_files_all_removed (paths : list string) (files : gset string) :
  exists files' results,
    removeAllTempFiles (fun _ => None)
      (fold_left (fun s p => trackTempFile p s) paths []) files
    = ([], files', results)
    /\ (forall p, p ∈ files' <-> p ∈ files /\ p ∉ paths)
    /\ (forall p r, (p, r) ∈ results -> r = Removed \/ r = AlreadyRemoved).
Proof.
  set (temp := fold_left (fun s p => trackTempFile p s) paths []).
  assert (NoDup temp) as Hnd by (apply tracked_NoDup, NoDup_nil_2).
  destruct (remove_loop (fun _ => None) temp [] files [] Hnd)
    as (fs' & Hrun & Hfs).
  exists fs', (map (fun p => (p, outcome (fun _ => None) files p)) temp).
  split_and!.
  - cbn [app] in Hrun. unfold removeAllTempFiles. rewrite Hrun.
    rewrite filter_none; [done|].
    intros p. unfold stuck.
    by rewrite (bool_decide_eq_false_2 (is_Some None)); [|intros [? ?]].
  - intros p. rewrite Hfs. unfold temp. rewrite tracked_elem.
    split; intros [Hp Hn]; (split; [done|]).
    + intros Hin. destruct Hn as [? ?]; [by right|done].
    + intros [Hin|Hin]; [by apply elem_of_nil in Hin|done].
  - intros p r Hin. apply list_elem_of_fmap in Hin as (q & Heq & _).
    injection Heq as -> ->. unfold outcome.
    case_bool_decide; auto.
Qed.

End CleanupProofs.

(* ===================================================================== *)
(** * Proofs: the memory monitor *)
(* ===================================================================== *)

Module MonitorProofs.

Import MemoryMonitor CleanupProps.

Lemma forceGC_peaks (st : stats) (gc : option (Z * Z * Z)) :
  peakHeapUsed (fst (forceGC st gc)) = peakHeapUsed st
  /\ peakHeapTotal (fst (forceGC st gc)) = peakHeapTotal st.
Proof. by destruct gc as [[[? ?] ?]|]. Qed.

Lemma tick_step (cfg : config) (st : stats)
      (c : usage * (option (Z * Z * Z) * option (Z * Z * Z))) :
  peakHeapUsed (tick cfg st c) = Z.max (peakHeapUsed st) (heapUsed (fst c))
  /\ peakHeapTotal (tick cfg st c)
     = Z.max (peakHeapTotal st) (heapTotal (fst c))
  /\ gcCount (tick cfg st c)
     = (gcCount st + if collects cfg c then 1 else 0)%nat.
Proof.
  destruct c as [u [gc gc']].
  unfold tick, _checkMemory, collects. cbn [fst snd].
  destruct (bool_decide (heapUsed u >= criticalThreshold cfg));
    [|destruct (bool_decide (heapUsed u >= warningThreshold cfg))];
    destruct (autoGC cfg);
    destruct gc as [[[before after] now]|];
    destruct gc' as [[[before' after'] now']|];
    cbn -[Z.max];
    repeat case_bool_decide;
    try match goal with H : ~ is_Some (Some _) |- _ =>
                          exfalso; apply H; by eexists end;
    try match goal with H : is_Some None |- _ =>
                          exfalso; by destruct H end;
    cbn -[Z.max]; split_and!; lia.
Qed.

(** After any number of checks the recorded peaks are the largest
    heap sizes seen, the starting peaks included. *)
Theorem peaks_are_maxima (cfg : config)
        (checks : list (usage * (option (Z * Z * Z) * option (Z * Z * Z))))
        (st : stats) :
  peakHeapUsed (check_all cfg st checks)
  = fold_left Z.max (map (fun c => heapUsed (fst c)) checks) (peakHeapUsed st)
  /\ peakHeapTotal (check_all cfg st checks)
     = fold_left Z.max (map (fun c => heapTotal (fst c)) checks)
                 (peakHeapTotal st).
Proof.
  revert st. induction checks as [|c checks IH]; intros st; [done|].
  unfold check_all in *. cbn [fold_left map].
  destruct (IH (tick cfg st c)) as [IH1 IH2].
  destruct (tick_step cfg st c) as (H1 & H2 & _).
  rewrite IH1, IH2, H1, H2. done.
Qed.

(** Over any number of turns of the timer, the count of collections
    grows by one exactly at the turns with [autoGC] on and [global.gc]
    there that find the heap at the critical threshold or above, where
    the collection is made in the check, or else at the warning
    threshold or above, where it is put off with [setImmediate] and made
    before the next check, if [global.gc] is still there then. *)
Theorem gcCount_counts_forced (cfg : config)
        (checks : list (usage * (option (Z * Z * Z) * option (Z * Z * Z))))
        (st : stats) :
  gcCount (check_all cfg st checks)
  = (gcCount st + length (List.filter (collects cfg) checks))%nat.
Proof.
  revert st. induction checks as [|c checks IH]; intros st;
    [cbn; lia|].
  unfold check_all in *. cbn [fold_left List.filter].
  rewrite IH.
  destruct (tick_step cfg st c) as (_ & _ & H3). rewrite H3.
  destruct (collects cfg c); cbn [length]; lia.
Qed.

End MonitorProofs.
